(** * MyTorrents: the Bencode decoder and the torrent metadata layer

    A shallow embedding of [src/bencode.cpp] and [src/torrentfile.cpp].

    - [std::string] and [std::string_view] are lists of 8-bit characters;
    - [size_t] and [int64_t] are [Z] with the 64-bit wrap-around written out;
    - the cursor [size_t &pos] is passed in and handed back with the result;
    - [throw std::runtime_error(...)] is the [Throw] outcome, one constructor
      per message;
    - [std::map<std::string, _>] is an association list kept in ascending
      key order, which is the order its iterators walk;
    - [pos++] and [pos + 1] stand behind a test [pos < input.size()] and
      cannot wrap; the additions that can ([length * 10 + digit],
      [pos + length], [result * 10 + digit], [-result], [totalSize += length])
      are wrapped;
    - the mutual recursion of [parseValue], [parseList] and [parseDict] and
      the two [while] loops are driven by a fuel counter: a call returns,
      throws, or is [OutOfFuel]; more fuel never changes a call that ended
      ([parse_more_fuel]). *)

From Stdlib Require Import ZArith NArith List Ascii String Bool Lia.
From Stdlib Require Import Sorting.Permutation Sorting.Sorted.
Import ListNotations.

Local Open Scope Z_scope.

(* ================================================================= *)
(** ** Characters, strings and machine integers *)

Definition bytes := list ascii.

(** A string literal as a byte sequence. *)
Definition str (s : string) : bytes := list_ascii_of_string s.

(** The value of a [char] read as [unsigned char]. *)
Definition code (c : ascii) : Z := Z.of_N (N_of_ascii c).

(** [std::isdigit] *)
Definition isdigit (c : ascii) : bool := (48 <=? code c) && (code c <=? 57).

Definition chr_eqb (a b : ascii) : bool := Ascii.eqb a b.

(** [input.size()] *)
Definition size (input : bytes) : Z := Z.of_nat (List.length input).

(** [input[pos]]; every use in the source is guarded by [pos < input.size()]. *)
Definition byte_at (input : bytes) (pos : Z) : ascii :=
  nth (Z.to_nat pos) input zero.

(** [input.substr(pos, count)]: the characters [pos .. min(pos+count, size)). *)
Definition substr (input : bytes) (pos count : Z) : bytes :=
  firstn (Z.to_nat (Z.min count (size input - pos))) (skipn (Z.to_nat pos) input).

(** Arithmetic on [size_t]: modulo 2^64. *)
Definition wrap_size (x : Z) : Z := x mod 2 ^ 64.

(** Arithmetic on [int64_t]: two's complement wrap-around. *)
Definition wrap64 (x : Z) : Z := (x + 2 ^ 63) mod 2 ^ 64 - 2 ^ 63.

(* ================================================================= *)
(** ** Outcomes *)

(** The messages of the [std::runtime_error]s thrown by the decoder. *)
Inductive ParseError : Type :=
| UnexpectedEndOfInput
| InvalidValueType
| InvalidIntegerFormat
| IntegerNoDigits
| IntegerLeadingZeros
| IntegerMissingE
| StringMissingColon
| StringLeadingZeros
| StringNonDigit
| StringInsufficient
| InvalidListFormat
| ListMissingE
| InvalidDictFormat
| DictKeyMustBeString
| DuplicateDictKey
| DictMissingE.

Definition what (e : ParseError) : string :=
  match e with
  | UnexpectedEndOfInput => "Unexpected end of input"
  | InvalidValueType => "Invalid value type"
  | InvalidIntegerFormat => "Invalid integer format"
  | IntegerNoDigits => "Invalid integer format: no digits"
  | IntegerLeadingZeros => "Invalid integer format: leading zeros"
  | IntegerMissingE => "Invalid integer format: missing 'e'"
  | StringMissingColon => "Invalid string format: missing colon"
  | StringLeadingZeros => "Invalid string length: leading zeros"
  | StringNonDigit => "Invalid string length: non-digit character"
  | StringInsufficient => "Invalid string: insufficient characters"
  | InvalidListFormat => "Invalid list format"
  | ListMissingE => "Invalid list format: missing 'e'"
  | InvalidDictFormat => "Invalid dictionary format"
  | DictKeyMustBeString => "Invalid dictionary key: must be string"
  | DuplicateDictKey => "Duplicate dictionary key"
  | DictMissingE => "Invalid dictionary format: missing 'e'"
  end%string.

(** A call returns, throws, or is still running when the fuel is spent. *)
Inductive outcome (E A : Type) : Type :=
| Ok (a : A)
| Throw (e : E)
| OutOfFuel.

Arguments Ok {E A} a.
Arguments Throw {E A} e.
Arguments OutOfFuel {E A}.

Definition bind {E A B} (m : outcome E A) (k : A -> outcome E B) : outcome E B :=
  match m with
  | Ok a => k a
  | Throw e => Throw e
  | OutOfFuel => OutOfFuel
  end.

Notation "' p <- m ;; k" := (bind m (fun p => k))
  (at level 61, p pattern, m at next level, right associativity).

Definition parsed (A : Type) : Type := outcome ParseError (A * Z).

(* ================================================================= *)
(** ** [std::map<std::string, V>] *)

Module StdMap.

(** [std::string::compare]: lexicographic on unsigned character values. *)
Fixpoint compare (a b : bytes) : comparison :=
match a, b with
| [], [] => Eq
| [], _ :: _ => Lt
| _ :: _, [] => Gt
| x :: a', y :: b' =>
    match Z.compare (code x) (code y) with
    | Eq => compare a' b'
    | c => c
    end
end.

Definition lt (a b : bytes) : Prop := compare a b = Lt.

Section WithValue.
Context {V : Type}.

Definition t := list (bytes * V).

Definition keys (m : t) : list bytes := map fst m.

(** [m.insert({k, v})]: the map afterwards, and [.second]. *)
Fixpoint insert (k : bytes) (v : V) (m : t) : t * bool :=
  match m with
  | [] => ([(k, v)], true)
  | (k', v') :: m' =>
      match compare k k' with
      | Lt => ((k, v) :: m, true)
      | Eq => (m, false)
      | Gt => let (m'', fresh) := insert k v m' in ((k', v') :: m'', fresh)
      end
  end.

(** [m.find(k)]; [None] is [m.end()]. *)
Fixpoint find (k : bytes) (m : t) : option V :=
  match m with
  | [] => None
  | (k', v') :: m' =>
      match compare k k' with
      | Eq => Some v'
      | _ => find k m'
      end
  end.

Definition sorted (m : t) : Prop := StronglySorted lt (keys m).
End WithValue.

Arguments t V : clear implicits.

End StdMap.

(* ================================================================= *)
(** ** The value model: [BencodeValue] *)

#[warnings="-register-all"]
Inductive BencodeValue : Type :=
| BInt (i : Z)
| BString (s : bytes)
| BList (l : list BencodeValue)
| BDict (d : list (bytes * BencodeValue)).

Definition List_ := list BencodeValue.
Definition Dict := StdMap.t BencodeValue.

Definition isInt (v : BencodeValue) : bool :=
  match v with BInt _ => true | _ => false end.
Definition isString (v : BencodeValue) : bool :=
  match v with BString _ => true | _ => false end.
Definition isList (v : BencodeValue) : bool :=
  match v with BList _ => true | _ => false end.
Definition isDict (v : BencodeValue) : bool :=
  match v with BDict _ => true | _ => false end.

(** The getters; [None] is [std::bad_variant_access]. *)
Definition getInt (v : BencodeValue) : option Z :=
  match v with BInt i => Some i | _ => None end.
Definition getString (v : BencodeValue) : option bytes :=
  match v with BString s => Some s | _ => None end.
Definition getList (v : BencodeValue) : option List_ :=
  match v with BList l => Some l | _ => None end.
Definition getDict (v : BencodeValue) : option Dict :=
  match v with BDict d => Some d | _ => None end.

(* ================================================================= *)
(** ** The decoder: [BencodeParser] *)

(** The digit loop of [parseInt], run on the characters from [pos] on:
    [while (pos < input.size() && std::isdigit(input[pos]))]. *)
Fixpoint parseInt_digits (rest : bytes) (result pos : Z) : Z * Z :=
  match rest with
  | c :: rest' =>
      if isdigit c
      then parseInt_digits rest' (wrap64 (result * 10 + (code c - 48))) (pos + 1)
      else (result, pos)
  | [] => (result, pos)
  end.

(** [parseInt] from the "at least one digit" check to its [return];
    [negative] is the flag set while reading the sign. *)
Definition parseInt_number (input : bytes) (pos : Z) (negative : bool) : parsed Z :=
  if (size input <=? pos) || negb (isdigit (byte_at input pos))
  then Throw IntegerNoDigits
  else if chr_eqb (byte_at input pos) "0" && (pos + 1 <? size input)
          && negb (chr_eqb (byte_at input (pos + 1)) "e")
  then Throw IntegerLeadingZeros
  else
    let '(result, pos) :=
      parseInt_digits (skipn (Z.to_nat pos) input) 0 pos in
    if (size input <=? pos) || negb (chr_eqb (byte_at input pos) "e")
    then Throw IntegerMissingE
    else Ok (if negative then wrap64 (- result) else result, pos + 1).

Definition parseInt (input : bytes) (pos : Z) : parsed Z :=
  if (size input <=? pos) || negb (chr_eqb (byte_at input pos) "i")
  then Throw InvalidIntegerFormat
  else
    let pos := pos + 1 in
    let '(negative, pos) :=
      if (pos <? size input) && chr_eqb (byte_at input pos) "-"
      then (true, pos + 1) else (false, pos) in
    parseInt_number input pos negative.

(** [input.find(c, pos)] on the characters from [pos] on; [None] is [npos]. *)
Fixpoint find_from (c : ascii) (rest : bytes) (pos : Z) : option Z :=
  match rest with
  | [] => None
  | x :: rest' => if chr_eqb x c then Some pos else find_from c rest' (pos + 1)
  end.

Definition find_char (input : bytes) (c : ascii) (pos : Z) : option Z :=
  find_from c (skipn (Z.to_nat pos) input) pos.

(** The [for (char c : lengthStr)] loop of [parseString]; [None] is the throw. *)
Fixpoint parseString_length (lengthStr : bytes) (length : Z) : option Z :=
  match lengthStr with
  | [] => Some length
  | c :: rest =>
      if isdigit c
      then parseString_length rest (wrap_size (length * 10 + (code c - 48)))
      else None
  end.

Definition parseString (input : bytes) (pos : Z) : parsed bytes :=
  match find_char input ":" pos with
  | None => Throw StringMissingColon
  | Some colonPos =>
      let lengthStr := substr input pos (colonPos - pos) in
      if (1 <? size lengthStr) && chr_eqb (byte_at lengthStr 0) "0"
      then Throw StringLeadingZeros
      else
        match parseString_length lengthStr 0 with
        | None => Throw StringNonDigit
        | Some length =>
            let pos := colonPos + 1 in
            if size input <? wrap_size (pos + length)
            then Throw StringInsufficient
            else Ok (substr input pos length, wrap_size (pos + length))
        end
  end.

Section Loops.
(** The recursive calls [parseValue(input, pos)] made from the loops. *)
Variable parseValue_rec : bytes -> Z -> parsed BencodeValue.

Fixpoint parseList_loop (fuel : nat) (input : bytes) (pos : Z)
    (result : List_) : parsed List_ :=
  match fuel with
  | O => OutOfFuel
  | S fuel' =>
      if (pos <? size input) && negb (chr_eqb (byte_at input pos) "e")
      then
        '(v, pos) <- parseValue_rec input pos ;;
        parseList_loop fuel' input pos (result ++ [v])
      else Ok (result, pos)
  end.

Definition parseList (fuel : nat) (input : bytes) (pos : Z) : parsed List_ :=
  if (size input <=? pos) || negb (chr_eqb (byte_at input pos) "l")
  then Throw InvalidListFormat
  else
    let pos := pos + 1 in
    '(result, pos) <- parseList_loop fuel input pos [] ;;
    if (size input <=? pos) || negb (chr_eqb (byte_at input pos) "e")
    then Throw ListMissingE
    else Ok (result, pos + 1).

Fixpoint parseDict_loop (fuel : nat) (input : bytes) (pos : Z)
    (result : Dict) : parsed Dict :=
  match fuel with
  | O => OutOfFuel
  | S fuel' =>
      if (pos <? size input) && negb (chr_eqb (byte_at input pos) "e")
      then
        if negb (isdigit (byte_at input pos))
        then Throw DictKeyMustBeString
        else
          '(key, pos) <- parseString input pos ;;
          '(value, pos) <- parseValue_rec input pos ;;
          let (result', fresh) := StdMap.insert key value result in
          if negb fresh
          then Throw DuplicateDictKey
          else parseDict_loop fuel' input pos result'
      else Ok (result, pos)
  end.

Definition parseDict (fuel : nat) (input : bytes) (pos : Z) : parsed Dict :=
  if (size input <=? pos) || negb (chr_eqb (byte_at input pos) "d")
  then Throw InvalidDictFormat
  else
    let pos := pos + 1 in
    '(result, pos) <- parseDict_loop fuel input pos [] ;;
    if (size input <=? pos) || negb (chr_eqb (byte_at input pos) "e")
    then Throw DictMissingE
    else Ok (result, pos + 1).
End Loops.

Fixpoint parseValue (fuel : nat) (input : bytes) (pos : Z) : parsed BencodeValue :=
  match fuel with
  | O => OutOfFuel
  | S fuel' =>
      if size input <=? pos
      then Throw UnexpectedEndOfInput
      else
        let c := byte_at input pos in
        if isdigit c
        then '(s, pos) <- parseString input pos ;; Ok (BString s, pos)
        else if chr_eqb c "i"
        then '(i, pos) <- parseInt input pos ;; Ok (BInt i, pos)
        else if chr_eqb c "l"
        then '(l, pos) <- parseList (parseValue fuel') fuel' input pos ;;
             Ok (BList l, pos)
        else if chr_eqb c "d"
        then '(d, pos) <- parseDict (parseValue fuel') fuel' input pos ;;
             Ok (BDict d, pos)
        else Throw InvalidValueType
  end.

(** [BencodeParser::parse]: the value only; the final cursor is dropped. *)
Definition parse (fuel : nat) (input : bytes) : outcome ParseError BencodeValue :=
  '(v, _) <- parseValue fuel input 0 ;; Ok v.

(* ================================================================= *)
(** ** The metadata layer: [TorrentFile] *)

Module FileInfo.
Record t : Type := make { path : bytes; length : Z }.
End FileInfo.

Inductive TorrentError : Type :=
| DecodeError (e : ParseError)
| RootMustBeDict
| MissingInfoDict
| MissingPieceLength
| MissingPieces
| MissingLengthOrFiles.

Module TorrentFile.

Record t : Type := make {
  announce : bytes;
  name : bytes;
  pieceLength : Z;
  pieces : list bytes;
  files : list FileInfo.t;
  totalSize : Z;
  createdBy : bytes;
  creationDate : Z;
  singleFile : bool
}.

(** The member initialisers of the class. *)
Definition init : t :=
  make [] [] 0 [] [] 0 [] 0 true.

Definition set_announce (x : bytes) (self : t) : t :=
  make x (name self) (pieceLength self) (pieces self) (files self)
       (totalSize self) (createdBy self) (creationDate self) (singleFile self).
Definition set_name (x : bytes) (self : t) : t :=
  make (announce self) x (pieceLength self) (pieces self) (files self)
       (totalSize self) (createdBy self) (creationDate self) (singleFile self).
Definition set_pieceLength (x : Z) (self : t) : t :=
  make (announce self) (name self) x (pieces self) (files self)
       (totalSize self) (createdBy self) (creationDate self) (singleFile self).
Definition set_pieces (x : list bytes) (self : t) : t :=
  make (announce self) (name self) (pieceLength self) x (files self)
       (totalSize self) (createdBy self) (creationDate self) (singleFile self).
Definition set_files (x : list FileInfo.t) (self : t) : t :=
  make (announce self) (name self) (pieceLength self) (pieces self) x
       (totalSize self) (createdBy self) (creationDate self) (singleFile self).
Definition set_totalSize (x : Z) (self : t) : t :=
  make (announce self) (name self) (pieceLength self) (pieces self) (files self)
       x (createdBy self) (creationDate self) (singleFile self).
Definition set_createdBy (x : bytes) (self : t) : t :=
  make (announce self) (name self) (pieceLength self) (pieces self) (files self)
       (totalSize self) x (creationDate self) (singleFile self).
Definition set_creationDate (x : Z) (self : t) : t :=
  make (announce self) (name self) (pieceLength self) (pieces self) (files self)
       (totalSize self) (createdBy self) x (singleFile self).
Definition set_singleFile (x : bool) (self : t) : t :=
  make (announce self) (name self) (pieceLength self) (pieces self) (files self)
       (totalSize self) (createdBy self) (creationDate self) x.

(** The inner loop of [parseFilesList] over [pathList], from index [i]. *)
Fixpoint joinPath (pathList : List_) (i : Z) (path : bytes) : bytes :=
  match pathList with
  | [] => path
  | BString s :: rest =>
      joinPath rest (i + 1) ((if 0 <? i then path ++ str "/" else path) ++ s)
  | _ :: rest => joinPath rest (i + 1) path
  end.

Fixpoint parseFilesList (filesList : List_) (self : t) : t :=
  match filesList with
  | [] => self
  | BDict fileDict :: rest =>
      match StdMap.find (str "length") fileDict with
      | Some (BInt length) =>
          match StdMap.find (str "path") fileDict with
          | Some (BList pathList) =>
              let path := joinPath pathList 0 [] in
              let self := set_files (files self ++ [FileInfo.make path length]) self in
              let self := set_totalSize (wrap64 (totalSize self + length)) self in
              parseFilesList rest self
          | _ => parseFilesList rest self
          end
      | _ => parseFilesList rest self
      end
  | _ :: rest => parseFilesList rest self
  end.

(** [for (size_t i = 0; i < piecesStr.length(); i += 20)]; the loop runs
    at most [piecesStr.length()] times, which is the fuel it is given. *)
Fixpoint splitPieces (fuel : nat) (piecesStr : bytes) (i : Z)
    (pieces : list bytes) : list bytes :=
  match fuel with
  | O => pieces
  | S fuel' =>
      if i <? size piecesStr
      then splitPieces fuel' piecesStr (i + 20) (pieces ++ [substr piecesStr i 20])
      else pieces
  end.

Definition parseInfoDict (infoDict : Dict) (self : t) : outcome TorrentError t :=
  match StdMap.find (str "piece length") infoDict with
  | Some (BInt n) =>
      let self := set_pieceLength n self in
      match StdMap.find (str "pieces") infoDict with
      | Some (BString piecesStr) =>
          let self :=
            set_pieces (splitPieces (List.length piecesStr) piecesStr 0 (pieces self))
                       self in
          let self :=
            match StdMap.find (str "name") infoDict with
            | Some (BString s) => set_name s self
            | _ => self
            end in
          match StdMap.find (str "length") infoDict with
          | Some (BInt n) =>
              let self := set_singleFile true self in
              let self := set_totalSize n self in
              Ok (set_files (files self ++ [FileInfo.make (name self) (totalSize self)])
                            self)
          | _ =>
              match StdMap.find (str "files") infoDict with
              | Some (BList filesList) =>
                  let self := set_singleFile false self in
                  Ok (parseFilesList filesList self)
              | _ => Throw MissingLengthOrFiles
              end
          end
      | _ => Throw MissingPieces
      end
  | _ => Throw MissingPieceLength
  end.

Definition parseTorrentDict (dict : Dict) (self : t) : outcome TorrentError t :=
  let self :=
    match StdMap.find (str "announce") dict with
    | Some (BString s) => set_announce s self
    | _ => self
    end in
  let self :=
    match StdMap.find (str "creation date") dict with
    | Some (BInt n) => set_creationDate n self
    | _ => self
    end in
  let self :=
    match StdMap.find (str "created by") dict with
    | Some (BString s) => set_createdBy s self
    | _ => self
    end in
  match StdMap.find (str "info") dict with
  | Some (BDict infoDict) => parseInfoDict infoDict self
  | _ => Throw MissingInfoDict
  end.

(** The constructor, from the bytes [readTorrentFile] returned. *)
Definition construct (fuel : nat) (torrentData : bytes) : outcome TorrentError t :=
  match parse fuel torrentData with
  | Ok (BDict dict) => parseTorrentDict dict init
  | Ok _ => Throw RootMustBeDict
  | Throw e => Throw (DecodeError e)
  | OutOfFuel => OutOfFuel
  end.

End TorrentFile.

(* ================================================================= *)
(** ** Encodings: the inputs the properties range over

    The repository has no encoder.  To speak about "the encoding of an
    integer" or "a well-formed dictionary encoding" the byte sequences are
    described by their syntax tree, in source order. *)

(** The character of a decimal digit [0..9]. *)
Definition digit (d : N) : ascii := ascii_of_N (48 + d).

Fixpoint decimal_fuel (fuel : nat) (n : N) : bytes :=
  match fuel with
  | O => []
  | S fuel' =>
      if (n <? 10)%N then [digit n]
      else decimal_fuel fuel' (n / 10)%N ++ [digit (n mod 10)%N]
  end.

(** The decimal digits of [n], most significant first, no leading zero. *)
Definition decimal (n : N) : bytes :=
  decimal_fuel (S (N.to_nat (N.log2 n))) n.

(** The syntax of an encoding: an integer literal by sign and magnitude
    (so that [-0] and magnitudes beyond 64 bits can be written), a byte
    string, a list, and a dictionary by its entries in source order. *)
#[warnings="-register-all"]
Inductive Term : Type :=
| TInt (negative : bool) (magnitude : N)
| TString (s : bytes)
| TList (items : list Term)
| TDict (entries : list (bytes * Term)).

(** [<length>:<bytes>] *)
Definition encode_string (s : bytes) : bytes :=
  decimal (N.of_nat (List.length s)) ++ ":"%char :: s.

(** The bytes of an encoding: [i<digits>e], [<length>:<bytes>],
    [l<value>*e], [d(<key><value>)*e]. *)
Fixpoint encoding (t : Term) : bytes :=
  match t with
  | TInt negative m =>
      "i" :: (if negative then ["-"] else []) ++ decimal m ++ ["e"]
  | TString s => encode_string s
  | TList items => "l" :: List.concat (map encoding items) ++ ["e"]
  | TDict entries =>
      "d" :: List.concat (map (fun kv => encode_string (fst kv) ++ encoding (snd kv))
                         entries) ++ ["e"]
  end%char.

Definition bytes_eqb (a b : bytes) : bool :=
  match StdMap.compare a b with Eq => true | _ => false end.

Fixpoint distinct (ks : list bytes) : bool :=
  match ks with
  | [] => true
  | k :: ks' => negb (existsb (bytes_eqb k) ks') && distinct ks'
  end.

(** Within every dictionary of the tree the keys are pairwise different. *)
Fixpoint unique_keys (t : Term) : bool :=
  match t with
  | TInt _ _ | TString _ => true
  | TList items => forallb unique_keys items
  | TDict entries =>
      distinct (map fst entries)
      && forallb (fun kv => unique_keys (snd kv)) entries
  end.

(** The keys of a dictionary encoding, in their order of appearance. *)
Definition keys_in_source (entries : list (bytes * Term)) : list bytes :=
  map fst entries.

(* ================================================================= *)
(** ** Vocabulary of the properties *)

(** The number a digit string reads as, without wrap-around. *)
Definition digits_value (ds : bytes) (r : Z) : Z :=
  fold_left (fun r c => r * 10 + (code c - 48)) ds r.

(** [cursor input pos rest]: the characters of [input] from [pos] on are
    [rest]. *)
Definition cursor (input : bytes) (pos : Z) (rest : bytes) : Prop :=
  exists pre, input = pre ++ rest /\ pos = size pre.

(** The loop stops at the end of the input or at a non-digit. *)
Definition stops (rest : bytes) : Prop :=
  match rest with
  | [] => True
  | c :: _ => isdigit c = false
  end.

(** What follows is neither a digit nor a sign: the end, or another byte. *)
Definition no_number (rest : bytes) : Prop :=
  match rest with
  | [] => True
  | c :: _ => isdigit c = false /\ c <> "-"%char
  end.

(** The integer written as sign and magnitude, as [parseInt] reads it. *)
Definition int_value (negative : bool) (m : N) : Z :=
  let result := wrap64 (Z.of_N m) in
  if negative then wrap64 (- result) else result.

(** The map built by inserting the entries one after the other. *)
Definition insert_all (kvs : list (bytes * BencodeValue)) (acc : Dict) : Dict :=
  fold_left (fun d kv => fst (StdMap.insert (fst kv) (snd kv) d)) kvs acc.

(** The value an encoding stands for: integers reduced to 64 bits, the
    entries of a dictionary inserted in source order. *)
Fixpoint denote (t : Term) : BencodeValue :=
  match t with
  | TInt negative m => BInt (int_value negative m)
  | TString s => BString s
  | TList items => BList (map denote items)
  | TDict entries =>
      BDict (insert_all (map (fun kv => (fst kv, denote (snd kv))) entries) [])
  end.

Definition encode_entry (kv : bytes * Term) : bytes :=
  encode_string (fst kv) ++ encoding (snd kv).

Definition denote_entry (kv : bytes * Term) : bytes * BencodeValue :=
  (fst kv, denote (snd kv)).

(** The lead byte of an encoding selects its sub-parser, and is never ['e']. *)
Inductive lead : Term -> ascii -> Prop :=
| lead_int negative m : lead (TInt negative m) "i"
| lead_string s c : isdigit c = true -> lead (TString s) c
| lead_list items : lead (TList items) "l"
| lead_dict entries : lead (TDict entries) "d".

(** A call that came to an end, by returning or by throwing. *)
Definition finished {E A : Type} (r : outcome E A) : Prop := r <> OutOfFuel.

(** [pv'] ends as [pv] does wherever [pv] ends. *)
Definition refines (pv pv' : bytes -> Z -> parsed BencodeValue) : Prop :=
  forall input pos, finished (pv input pos) -> pv' input pos = pv input pos.

(** The recursive call [pv] decodes every occurrence of [t] in the buffer. *)
Definition decodes (pv : bytes -> Z -> parsed BencodeValue) (input : bytes)
    (t : Term) : Prop :=
  forall pos post,
    cursor input pos (encoding t ++ post) ->
    pv input pos = Ok (denote t, pos + size (encoding t)).

(** The components of a path joined with ['/']. *)
Definition join_slash (components : list bytes) : bytes :=
  match components with
  | [] => []
  | c :: rest => c ++ List.concat (map (fun s => "/"%char :: s) rest)
  end.

(** A file entry of the expected shape: a dictionary with an integer
    [length] and a list [path] whose components are all strings. *)
Definition well_formed_file_entry (e : BencodeValue) : bool :=
  match e with
  | BDict d =>
      match StdMap.find (str "length") d, StdMap.find (str "path") d with
      | Some (BInt _), Some (BList pathList) => forallb isString pathList
      | _, _ => false
      end
  | _ => false
  end.

(** The entries [parseFilesList] passes over: not a dictionary, no integer
    [length], or no list [path]. *)
Definition skipped_file_entry (e : BencodeValue) : bool :=
  match e with
  | BDict d =>
      match StdMap.find (str "length") d, StdMap.find (str "path") d with
      | Some (BInt _), Some (BList _) => false
      | _, _ => true
      end
  | _ => true
  end.

(** [files.push_back({path, length}); totalSize += length;] *)
Definition add_file (path : bytes) (length : Z) (self : TorrentFile.t) : TorrentFile.t :=
  TorrentFile.set_totalSize (wrap64 (TorrentFile.totalSize self + length))
    (TorrentFile.set_files
       (TorrentFile.files self ++ [FileInfo.make path length]) self).

(** Every integer of the value fits 64 bits and every dictionary of the
    value is in strictly ascending key order, at every depth. *)
Fixpoint value_ok (v : BencodeValue) : Prop :=
  match v with
  | BInt i => - 2 ^ 63 <= i < 2 ^ 63
  | BString _ => True
  | BList l =>
      (fix all (l : list BencodeValue) : Prop :=
         match l with
         | [] => True
         | x :: r => value_ok x /\ all r
         end) l
  | BDict d =>
      StdMap.sorted d
      /\ (fix all (d : list (bytes * BencodeValue)) : Prop :=
            match d with
            | [] => True
            | (_, x) :: r => value_ok x /\ all r
            end) d
  end.

(** The string components of a path list, in order. *)
Fixpoint strings_of (l : List_) : list bytes :=
  match l with
  | [] => []
  | BString s :: rest => s :: strings_of rest
  | _ :: rest => strings_of rest
  end.

(** The sum of the lengths of a file list. *)
Definition sum_lengths (fs : list FileInfo.t) : Z :=
  fold_right (fun f a => FileInfo.length f + a) 0 fs.

(** The bytes [parseValue] dispatches on. *)
Definition valid_lead (c : ascii) : bool :=
  isdigit c || chr_eqb c "i" || chr_eqb c "l" || chr_eqb c "d".

(* ================================================================= *)
(** * Properties *)

(** ** The decoder and the metadata layer at work *)

Example decode_empty_list : parse 5 (str "le") = Ok (BList []).
Proof. reflexivity. Qed.

Example decode_integers :
  parse 5 (str "li1ei2ei3ee") = Ok (BList [BInt 1; BInt 2; BInt 3]).
Proof. reflexivity. Qed.

Example decode_mixed_list :
  parse 5 (str "l4:spami42ee") = Ok (BList [BString (str "spam"); BInt 42]).
Proof. reflexivity. Qed.

Example decode_empty_dict : parse 5 (str "de") = Ok (BDict []).
Proof. reflexivity. Qed.

Example decode_dict :
  parse 5 (str "d3:foo3:bare") = Ok (BDict [(str "foo", BString (str "bar"))]).
Proof. reflexivity. Qed.

Example decode_length_leading_zero :
  parse 5 (str "01:a") = Throw StringLeadingZeros.
Proof. reflexivity. Qed.

Example decode_truncated_string :
  parse 5 (str "5:ab") = Throw StringInsufficient.
Proof. reflexivity. Qed.

Example decode_out_of_fuel : parse 2 (str "lli1eee") = OutOfFuel.
Proof. reflexivity. Qed.

Example minimal_torrent :
  TorrentFile.construct 10
    (str "d8:announce3:foo4:infod6:lengthi10e4:name1:x12:piece lengthi5e6:pieces20:AAAAAAAAAAAAAAAAAAAAee")
  = Ok (TorrentFile.make (str "foo") (str "x") 5 [str "AAAAAAAAAAAAAAAAAAAA"]
          [FileInfo.make (str "x") 10] 10 [] 0 true).
Proof. vm_compute. reflexivity. Qed.

Example multi_file_torrent :
  TorrentFile.construct 10
    (str "d4:infod5:filesld6:lengthi7e4:pathl1:a2:bceed6:lengthi3e4:pathl1:zeee12:piece lengthi5e6:pieces20:AAAAAAAAAAAAAAAAAAAAee")
  = Ok (TorrentFile.make [] [] 5 [str "AAAAAAAAAAAAAAAAAAAA"]
          [FileInfo.make (str "a/bc") 7; FileInfo.make (str "z") 3] 10 [] 0 false).
Proof. vm_compute. reflexivity. Qed.

(** A length prefix is read into a [size_t] and added to the cursor modulo
    2^64.  A buffer whose prefix announces 2^64 - 2 bytes is not a
    well-formed encoding, no buffer being that long; the decoder takes the
    rest of the buffer as the string and steps the cursor two bytes back. *)
Example length_prefix_wraps :
  parse 5 (str "l18446744073709551614:abcde")
  = Ok (BList [BString (str "abcde"); BString (str "abcd")]).
Proof. vm_compute. reflexivity. Qed.

(** ** Sizes, indexing and substrings *)

Lemma size_nonneg (l : bytes) : 0 <= size l.
Proof. unfold size. lia. Qed.

Lemma size_app (a b : bytes) : size (a ++ b) = size a + size b.
Proof. unfold size. rewrite List.length_app. lia. Qed.

Lemma size_cons (c : ascii) (l : bytes) : size (c :: l) = 1 + size l.
Proof. unfold size. simpl List.length. lia. Qed.

Lemma size_nil : size [] = 0.
Proof. reflexivity. Qed.

Lemma byte_at_app (pre : bytes) (c : ascii) (rest : bytes) :
  byte_at (pre ++ c :: rest) (size pre) = c.
Proof.
  unfold byte_at, size. rewrite Nat2Z.id.
  rewrite app_nth2 by lia. now rewrite Nat.sub_diag.
Qed.

Lemma skipn_app_size (pre rest : bytes) :
  skipn (Z.to_nat (size pre)) (pre ++ rest) = rest.
Proof.
  unfold size. rewrite Nat2Z.id.
  rewrite skipn_app, skipn_all, Nat.sub_diag. reflexivity.
Qed.

Lemma substr_app (pre s post : bytes) :
  substr (pre ++ s ++ post) (size pre) (size s) = s.
Proof.
  unfold substr. rewrite skipn_app_size.
  rewrite !size_app.
  pose proof (size_nonneg post).
  rewrite Z.min_l by lia.
  unfold size. rewrite Nat2Z.id.
  rewrite firstn_app, Nat.sub_diag, firstn_all. simpl. apply app_nil_r.
Qed.

(** ** Machine arithmetic *)

Lemma wrap64_small (x : Z) : - 2 ^ 63 <= x < 2 ^ 63 -> wrap64 x = x.
Proof. intros H. unfold wrap64. rewrite Z.mod_small; lia. Qed.

Lemma wrap64_range (x : Z) : - 2 ^ 63 <= wrap64 x < 2 ^ 63.
Proof.
  unfold wrap64.
  pose proof (Z.mod_pos_bound (x + 2 ^ 63) (2 ^ 64)). lia.
Qed.

Lemma wrap64_shift (x k : Z) : wrap64 (x + k * 2 ^ 64) = wrap64 x.
Proof.
  unfold wrap64.
  replace (x + k * 2 ^ 64 + 2 ^ 63) with (x + 2 ^ 63 + k * 2 ^ 64) by ring.
  now rewrite Z_mod_plus_full.
Qed.

Lemma wrap64_decomp (x : Z) : exists k, wrap64 x = x + k * 2 ^ 64.
Proof.
  exists (- ((x + 2 ^ 63) / 2 ^ 64)). unfold wrap64.
  pose proof (Z.div_mod (x + 2 ^ 63) (2 ^ 64)). lia.
Qed.

Lemma wrap64_idem (x : Z) : wrap64 (wrap64 x) = wrap64 x.
Proof. apply wrap64_small, wrap64_range. Qed.

Lemma wrap64_step (a b d : Z) :
  wrap64 a = wrap64 b -> wrap64 (a * 10 + d) = wrap64 (b * 10 + d).
Proof.
  intros H.
  destruct (wrap64_decomp a) as [k Hk], (wrap64_decomp b) as [j Hj].
  replace (a * 10 + d) with (b * 10 + d + (10 * (j - k)) * 2 ^ 64) by lia.
  apply wrap64_shift.
Qed.

Lemma wrap64_opp (x : Z) : wrap64 (- wrap64 x) = wrap64 (- x).
Proof.
  destruct (wrap64_decomp x) as [k Hk]. rewrite Hk.
  replace (- (x + k * 2 ^ 64)) with (- x + (- k) * 2 ^ 64) by ring.
  apply wrap64_shift.
Qed.

Lemma wrap_size_small (x : Z) : 0 <= x < 2 ^ 64 -> wrap_size x = x.
Proof. intros H. unfold wrap_size. now apply Z.mod_small. Qed.

Lemma wrap_size_step (a b d : Z) :
  wrap_size a = wrap_size b -> wrap_size (a * 10 + d) = wrap_size (b * 10 + d).
Proof.
  unfold wrap_size. intros H.
  rewrite (Z.add_mod (a * 10)), (Z.add_mod (b * 10)) by lia.
  rewrite (Z.mul_mod a), (Z.mul_mod b) by lia.
  now rewrite H.
Qed.

(** ** Characters *)

Lemma chr_eqb_eq (a b : ascii) : chr_eqb a b = true <-> a = b.
Proof. apply Ascii.eqb_eq. Qed.

Lemma chr_eqb_refl (a : ascii) : chr_eqb a a = true.
Proof. now apply chr_eqb_eq. Qed.

Lemma isdigit_not (c x : ascii) :
  isdigit c = true -> isdigit x = false -> chr_eqb c x = false.
Proof.
  intros Hc Hx. destruct (chr_eqb c x) eqn:E; [|reflexivity].
  apply chr_eqb_eq in E. congruence.
Qed.

Lemma code_digit (d : N) : (d < 10)%N -> code (digit d) = 48 + Z.of_N d.
Proof.
  intros H. unfold code, digit.
  rewrite N_ascii_embedding by lia. lia.
Qed.

Lemma isdigit_digit (d : N) : (d < 10)%N -> isdigit (digit d) = true.
Proof.
  intros H. unfold isdigit. rewrite code_digit by assumption.
  apply andb_true_intro. split; apply Z.leb_le; lia.
Qed.

Lemma code_inj (a b : ascii) : code a = code b -> a = b.
Proof.
  unfold code. intros H. apply N2Z.inj in H.
  rewrite <- (ascii_N_embedding a), <- (ascii_N_embedding b). now rewrite H.
Qed.

(** ** Decimal digits *)

Lemma decimal_fuel_enough (f : nat) :
  forall (n : N) (f' : nat),
    (n < 2 ^ N.of_nat (S f))%N -> (n < 2 ^ N.of_nat (S f'))%N ->
    decimal_fuel (S f) n = decimal_fuel (S f') n.
Proof.
  induction f as [|f IH]; intros n f' Hf Hf'.
  - change (2 ^ N.of_nat 1)%N with 2%N in Hf.
    cbn [decimal_fuel]. replace (n <? 10)%N with true; [reflexivity|].
    symmetry. apply N.ltb_lt. lia.
  - cbn [decimal_fuel]. destruct (n <? 10)%N eqn:E; [reflexivity|].
    apply N.ltb_ge in E.
    destruct f' as [|f'].
    { change (2 ^ N.of_nat 1)%N with 2%N in Hf'. lia. }
    f_equal. apply IH.
    + rewrite (Nat2N.inj_succ (S f)), N.pow_succ_r' in Hf.
      apply N.Div0.div_lt_upper_bound; lia.
    + rewrite (Nat2N.inj_succ (S f')), N.pow_succ_r' in Hf'.
      apply N.Div0.div_lt_upper_bound; lia.
Qed.

Lemma lt_pow2_log2 (n : N) : (n < 2 ^ N.of_nat (S (N.to_nat (N.log2 n))))%N.
Proof.
  rewrite Nat2N.inj_succ, N2Nat.id.
  destruct n as [|p]; [reflexivity|].
  apply N.log2_spec. lia.
Qed.

Lemma decimal_small (n : N) : (n < 10)%N -> decimal n = [digit n].
Proof.
  intros H. unfold decimal. cbn [decimal_fuel].
  apply N.ltb_lt in H. now rewrite H.
Qed.

Lemma decimal_step (n : N) :
  (10 <= n)%N -> decimal n = decimal (n / 10) ++ [digit (n mod 10)].
Proof.
  intros H. unfold decimal at 1. cbn [decimal_fuel].
  apply N.ltb_ge in H. rewrite H. apply N.ltb_ge in H.
  f_equal.
  pose proof (lt_pow2_log2 n) as Hn.
  pose proof (lt_pow2_log2 (n / 10)) as Hq.
  destruct (N.to_nat (N.log2 n)) as [|f] eqn:Ef.
  - change (2 ^ N.of_nat 1)%N with 2%N in Hn. lia.
  - unfold decimal. apply decimal_fuel_enough; [|exact Hq].
    rewrite (Nat2N.inj_succ (S f)), N.pow_succ_r' in Hn.
    apply N.Div0.div_lt_upper_bound; lia.
Qed.

(** Induction along the digits of a number. *)
Lemma decimal_ind (P : N -> bytes -> Prop) :
  (forall n, (n < 10)%N -> P n [digit n]) ->
  (forall n, (10 <= n)%N -> P (n / 10)%N (decimal (n / 10)) ->
             P n (decimal (n / 10) ++ [digit (n mod 10)])) ->
  forall n, P n (decimal n).
Proof.
  intros Hsmall Hstep n.
  induction n as [n IH] using (well_founded_induction N.lt_wf_0).
  destruct (N.lt_ge_cases n 10) as [H|H].
  - rewrite decimal_small by assumption. now apply Hsmall.
  - rewrite decimal_step by assumption. apply Hstep; [assumption|].
    apply IH. apply N.div_lt; lia.
Qed.

Lemma decimal_digits (n : N) : Forall (fun c => isdigit c = true) (decimal n).
Proof.
  apply (decimal_ind (fun _ ds => Forall (fun c => isdigit c = true) ds)).
  - intros m H. constructor; [now apply isdigit_digit|constructor].
  - intros m H IH. apply Forall_app. split; [assumption|].
    constructor; [|constructor]. apply isdigit_digit.
    apply N.mod_lt. lia.
Qed.

Lemma decimal_value (n : N) : digits_value (decimal n) 0 = Z.of_N n.
Proof.
  apply (decimal_ind (fun m ds => digits_value ds 0 = Z.of_N m)).
  - intros m H. unfold digits_value. simpl. rewrite code_digit by assumption. lia.
  - intros m H IH. unfold digits_value in *.
    rewrite fold_left_app, IH. simpl.
    rewrite code_digit by (apply N.mod_lt; lia).
    rewrite N2Z.inj_div, N2Z.inj_mod.
    change (Z.of_N 10) with 10.
    pose proof (Z.div_mod (Z.of_N m) 10). lia.
Qed.

Lemma decimal_head (n : N) :
  exists c rest, decimal n = c :: rest /\ (chr_eqb c "0" = true -> n = 0%N).
Proof.
  apply (decimal_ind (fun m ds =>
    exists c rest, ds = c :: rest /\ (chr_eqb c "0" = true -> m = 0%N))).
  - intros m H. exists (digit m), []. split; [reflexivity|].
    intros E. apply chr_eqb_eq in E.
    apply (f_equal code) in E. rewrite code_digit in E by assumption.
    change (code "0") with 48 in E. lia.
  - intros m H (c & rest & Hd & Hz). rewrite Hd.
    exists c, (rest ++ [digit (m mod 10)]). split; [reflexivity|].
    intros E. specialize (Hz E).
    assert (0 < m / 10)%N by (apply N.div_str_pos; lia). lia.
Qed.

Lemma decimal_zero : decimal 0 = ["0"%char].
Proof. reflexivity. Qed.

(** ** The cursor *)

Lemma cursor_start (input : bytes) : cursor input 0 input.
Proof. now exists []. Qed.

Lemma cursor_nonneg input pos rest : cursor input pos rest -> 0 <= pos.
Proof. intros (pre & _ & ->). apply size_nonneg. Qed.

Lemma cursor_size input pos rest :
  cursor input pos rest -> size input = pos + size rest.
Proof. intros (pre & -> & ->). apply size_app. Qed.

Lemma cursor_skipn input pos rest :
  cursor input pos rest -> skipn (Z.to_nat pos) input = rest.
Proof. intros (pre & -> & ->). apply skipn_app_size. Qed.

Lemma cursor_byte input pos c rest :
  cursor input pos (c :: rest) -> byte_at input pos = c.
Proof. intros (pre & -> & ->). apply byte_at_app. Qed.

Lemma cursor_leb input pos c rest :
  cursor input pos (c :: rest) -> (size input <=? pos) = false.
Proof.
  intros H. rewrite (cursor_size _ _ _ H), size_cons.
  pose proof (size_nonneg rest). apply Z.leb_gt. lia.
Qed.

Lemma cursor_ltb input pos c rest :
  cursor input pos (c :: rest) -> (pos <? size input) = true.
Proof.
  intros H. rewrite (cursor_size _ _ _ H), size_cons.
  pose proof (size_nonneg rest). apply Z.ltb_lt. lia.
Qed.

Lemma cursor_end_leb input pos :
  cursor input pos [] -> (size input <=? pos) = true.
Proof.
  intros H. rewrite (cursor_size _ _ _ H), size_nil. apply Z.leb_le. lia.
Qed.

Lemma cursor_end_ltb input pos :
  cursor input pos [] -> (pos <? size input) = false.
Proof.
  intros H. rewrite (cursor_size _ _ _ H), size_nil. apply Z.ltb_ge. lia.
Qed.

Lemma cursor_app input pos a rest :
  cursor input pos (a ++ rest) -> cursor input (pos + size a) rest.
Proof.
  intros (pre & -> & ->). exists (pre ++ a).
  now rewrite <- app_assoc, size_app.
Qed.

Lemma cursor_next input pos c rest :
  cursor input pos (c :: rest) -> cursor input (pos + 1) rest.
Proof.
  intros H. apply (cursor_app input pos [c] rest) in H. exact H.
Qed.

Lemma cursor_substr input pos a rest :
  cursor input pos (a ++ rest) -> substr input pos (size a) = a.
Proof. intros (pre & -> & ->). apply substr_app. Qed.

(** ** Integers *)

Lemma digits_value_wrap64 (ds : bytes) :
  forall a b, wrap64 a = wrap64 b ->
    wrap64 (digits_value ds a) = wrap64 (digits_value ds b).
Proof.
  induction ds as [|c ds IH]; intros a b H; [exact H|].
  apply IH. now apply wrap64_step.
Qed.

Lemma parseInt_digits_spec (ds : bytes) :
  forall rest r pos,
    Forall (fun c => isdigit c = true) ds -> stops rest -> wrap64 r = r ->
    parseInt_digits (ds ++ rest) r pos
    = (wrap64 (digits_value ds r), pos + size ds).
Proof.
  induction ds as [|c ds IH]; intros rest r pos Hds Hrest Hr.
  - simpl. rewrite size_nil, Z.add_0_r.
    unfold digits_value; simpl. rewrite Hr.
    destruct rest as [|x rest]; [reflexivity|].
    simpl in *. now rewrite Hrest.
  - inversion Hds as [|? ? Hc Hds']; subst.
    simpl. rewrite Hc.
    rewrite IH by (auto using wrap64_idem).
    rewrite size_cons. f_equal; [|lia].
    apply digits_value_wrap64, wrap64_idem.
Qed.

Lemma parseInt_unsigned input pos (m : N) (post : bytes) (negative : bool) :
  cursor input pos (decimal m ++ "e"%char :: post) ->
  parseInt_number input pos negative
  = Ok (int_value negative m, pos + size (decimal m) + 1).
Proof.
  intros H. unfold parseInt_number.
  pose proof (decimal_digits m) as Hds.
  destruct (decimal_head m) as (c & ds & Hd & Hz).
  rewrite (cursor_skipn _ _ _ H).
  rewrite parseInt_digits_spec by (auto; reflexivity).
  pose proof (cursor_app _ _ _ _ H) as He.
  rewrite (cursor_leb _ _ _ _ He), (cursor_byte _ _ _ _ He), chr_eqb_refl.
  rewrite Hd in H, Hds. simpl app in H.
  rewrite (cursor_leb _ _ _ _ H), (cursor_byte _ _ _ _ H).
  inversion Hds as [|? ? Hc _]; subst. rewrite Hc. cbn [orb negb].
  assert (Hlz : chr_eqb c "0" && (pos + 1 <? size input)
                && negb (chr_eqb (byte_at input (pos + 1)) "e") = false).
  { destruct (chr_eqb c "0") eqn:E; [|reflexivity].
    specialize (Hz eq_refl). subst m.
    rewrite decimal_zero in Hd. injection Hd as <- <-.
    pose proof (cursor_next _ _ _ _ H) as H1. simpl app in H1.
    rewrite (cursor_ltb _ _ _ _ H1), (cursor_byte _ _ _ _ H1). reflexivity. }
  rewrite Hlz.
  unfold int_value. rewrite decimal_value. reflexivity.
Qed.

Lemma parseInt_ok input pos (negative : bool) (m : N) (post : bytes) :
  cursor input pos (encoding (TInt negative m) ++ post) ->
  parseInt input pos
  = Ok (int_value negative m, pos + size (encoding (TInt negative m))).
Proof.
  intros H. cbn [encoding] in *.
  assert (Hsz : size ("i"%char :: (if negative then ["-"%char] else [])
                        ++ decimal m ++ ["e"%char])
                = 1 + (if negative then 1 else 0) + size (decimal m) + 1).
  { rewrite size_cons, !size_app. destruct negative; rewrite ?size_cons, size_nil; lia. }
  rewrite Hsz. clear Hsz.
  unfold parseInt. simpl app in H.
  rewrite (cursor_leb _ _ _ _ H), (cursor_byte _ _ _ _ H), chr_eqb_refl.
  cbn [orb negb].
  apply cursor_next in H.
  rewrite <- !app_assoc in H. simpl app in H.
  destruct negative; simpl app in H.
  - rewrite (cursor_ltb _ _ _ _ H), (cursor_byte _ _ _ _ H), chr_eqb_refl.
    cbn [andb]. apply cursor_next in H.
    etransitivity; [exact (parseInt_unsigned _ _ m post true H)|].
    f_equal. f_equal. lia.
  - destruct (decimal_head m) as (c & ds & Hd & _).
    pose proof (decimal_digits m) as Hds.
    assert (Hminus : chr_eqb (byte_at input (pos + 1)) "-" = false).
    { rewrite Hd in H, Hds. simpl app in H.
      rewrite (cursor_byte _ _ _ _ H).
      inversion Hds; subst. now apply isdigit_not. }
    rewrite Hminus, andb_false_r.
    etransitivity; [exact (parseInt_unsigned _ _ m post false H)|].
    f_equal. f_equal. lia.
Qed.

(** ** Byte strings *)

Lemma find_from_app (x : ascii) (ds : bytes) :
  forall rest pos,
    Forall (fun c => chr_eqb c x = false) ds ->
    find_from x (ds ++ x :: rest) pos = Some (pos + size ds).
Proof.
  induction ds as [|c ds IH]; intros rest pos H.
  - simpl. rewrite chr_eqb_refl, size_nil. f_equal. lia.
  - inversion H as [|? ? Hc Hds]; subst. simpl. rewrite Hc.
    rewrite IH by assumption. rewrite size_cons. f_equal. lia.
Qed.

Lemma digits_value_wrap_size (ds : bytes) :
  forall a b, wrap_size a = wrap_size b ->
    wrap_size (digits_value ds a) = wrap_size (digits_value ds b).
Proof.
  induction ds as [|c ds IH]; intros a b H; [exact H|].
  apply IH. now apply wrap_size_step.
Qed.

Lemma wrap_size_idem (x : Z) : wrap_size (wrap_size x) = wrap_size x.
Proof. unfold wrap_size. apply Z.mod_mod. lia. Qed.

Lemma parseString_length_spec (ds : bytes) :
  forall r,
    Forall (fun c => isdigit c = true) ds -> wrap_size r = r ->
    parseString_length ds r = Some (wrap_size (digits_value ds r)).
Proof.
  induction ds as [|c ds IH]; intros r Hds Hr.
  - simpl. unfold digits_value. simpl. now rewrite Hr.
  - inversion Hds as [|? ? Hc Hds']; subst. simpl. rewrite Hc.
    rewrite IH by (auto using wrap_size_idem). f_equal.
    apply digits_value_wrap_size, wrap_size_idem.
Qed.

Lemma size_encode_string (s : bytes) :
  size (encode_string s)
  = size (decimal (N.of_nat (List.length s))) + 1 + size s.
Proof. unfold encode_string. rewrite size_app, size_cons. lia. Qed.

Lemma parseString_ok input pos (s post : bytes) :
  cursor input pos (encode_string s ++ post) ->
  size input < 2 ^ 64 ->
  parseString input pos = Ok (s, pos + size (encode_string s)).
Proof.
  intros H Hbound.
  pose proof (cursor_nonneg _ _ _ H) as Hpos.
  pose proof (cursor_size _ _ _ H) as Hsize.
  rewrite size_app, size_encode_string in Hsize.
  pose proof (size_nonneg post) as Hpost.
  pose proof (size_nonneg s) as Hs.
  rewrite size_encode_string.
  set (L := N.of_nat (List.length s)) in *.
  pose proof (size_nonneg (decimal L)) as HL.
  unfold encode_string in H. fold L in H.
  rewrite <- app_assoc, <- app_comm_cons in H.
  pose proof (decimal_digits L) as Hds.
  unfold parseString, find_char.
  rewrite (cursor_skipn _ _ _ H).
  rewrite find_from_app
    by (eapply Forall_impl; [|exact Hds]; intros c Hc; now apply isdigit_not).
  replace (pos + size (decimal L) - pos) with (size (decimal L)) by lia.
  rewrite (cursor_substr _ _ _ _ H).
  assert (Hlz : (1 <? size (decimal L)) && chr_eqb (byte_at (decimal L) 0) "0"
                = false).
  { destruct (decimal_head L) as (c & ds & Hd & Hz).
    rewrite Hd. change (byte_at (c :: ds) 0) with c.
    destruct (chr_eqb c "0") eqn:E; [|apply andb_false_r].
    rewrite (Hz eq_refl) in Hd. rewrite decimal_zero in Hd.
    injection Hd as <- <-. reflexivity. }
  rewrite Hlz.
  rewrite parseString_length_spec by (auto; reflexivity).
  rewrite decimal_value.
  assert (HLs : Z.of_N L = size s) by (unfold L, size; lia).
  rewrite HLs.
  rewrite (wrap_size_small (size s)) by lia.
  rewrite wrap_size_small by lia.
  replace (size input <? pos + size (decimal L) + 1 + size s) with false
    by (symmetry; apply Z.ltb_ge; lia).
  apply cursor_app, cursor_next in H.
  rewrite (cursor_substr _ _ _ _ H).
  f_equal. f_equal. lia.
Qed.

(** ** The ordered map *)

Lemma compare_eq (a : bytes) : forall b, StdMap.compare a b = Eq <-> a = b.
Proof.
  induction a as [|x a IH]; intros [|y b]; simpl; try (split; congruence).
  destruct (Z.compare_spec (code x) (code y)) as [E|E|E].
  - apply code_inj in E. subst y. rewrite IH. split; congruence.
  - split; [discriminate|]. intros [= -> _]. lia.
  - split; [discriminate|]. intros [= -> _]. lia.
Qed.

Lemma compare_refl (a : bytes) : StdMap.compare a a = Eq.
Proof. now apply compare_eq. Qed.

Lemma compare_antisym (a : bytes) :
  forall b, StdMap.compare b a = CompOpp (StdMap.compare a b).
Proof.
  induction a as [|x a IH]; intros [|y b]; simpl; try reflexivity.
  rewrite (Z.compare_antisym (code x) (code y)).
  destruct (code x ?= code y); simpl; auto.
Qed.

Lemma lt_irrefl (a : bytes) : ~ StdMap.lt a a.
Proof. unfold StdMap.lt. rewrite compare_refl. discriminate. Qed.

Lemma lt_trans (a : bytes) :
  forall b c, StdMap.lt a b -> StdMap.lt b c -> StdMap.lt a c.
Proof.
  unfold StdMap.lt.
  induction a as [|x a IH]; intros [|y b] [|z c]; simpl; try congruence.
  destruct (Z.compare_spec (code x) (code y)) as [E1|E1|E1];
    destruct (Z.compare_spec (code y) (code z)) as [E2|E2|E2];
    try discriminate; intros H1 H2.
  - replace (code x ?= code z) with Eq by (symmetry; apply Z.compare_eq_iff; lia).
    eauto.
  - replace (code x ?= code z) with Lt by (symmetry; apply Z.compare_lt_iff; lia).
    reflexivity.
  - replace (code x ?= code z) with Lt by (symmetry; apply Z.compare_lt_iff; lia).
    reflexivity.
  - replace (code x ?= code z) with Lt by (symmetry; apply Z.compare_lt_iff; lia).
    reflexivity.
Qed.

Lemma gt_lt (a b : bytes) : StdMap.compare a b = Gt -> StdMap.lt b a.
Proof.
  intros H. unfold StdMap.lt. rewrite compare_antisym, H. reflexivity.
Qed.

Lemma bytes_eqb_eq (a b : bytes) : bytes_eqb a b = true <-> a = b.
Proof.
  unfold bytes_eqb. rewrite <- compare_eq.
  destruct (StdMap.compare a b); split; congruence.
Qed.

Lemma distinct_NoDup (ks : list bytes) : distinct ks = true <-> NoDup ks.
Proof.
  induction ks as [|k ks IH]; simpl.
  - split; [constructor|reflexivity].
  - rewrite andb_true_iff, negb_true_iff, IH. split.
    + intros [Hk Hks]. constructor; [|assumption].
      intros Hin. assert (existsb (bytes_eqb k) ks = true); [|congruence].
      apply existsb_exists. exists k. split; [assumption|now apply bytes_eqb_eq].
    + intros H. inversion H as [|? ? Hk Hks]; subst. split; [|assumption].
      destruct (existsb (bytes_eqb k) ks) eqn:E; [|reflexivity].
      apply existsb_exists in E. destruct E as (k' & Hin & E).
      apply bytes_eqb_eq in E. now subst k'.
Qed.

Section MapFacts.
Context {V : Type}.
Implicit Types (m : StdMap.t V) (k : bytes) (v : V).

Lemma insert_keys k v m :
  forall k', In k' (StdMap.keys (fst (StdMap.insert k v m)))
             <-> (snd (StdMap.insert k v m) = true /\ k' = k)
                 \/ In k' (StdMap.keys m).
Proof.
  induction m as [|[k0 v0] m IH]; intros k'; simpl.
  - intuition congruence.
  - destruct (StdMap.compare k k0) eqn:E; simpl.
    + intuition congruence.
    + intuition congruence.
    + specialize (IH k'). destruct (StdMap.insert k v m) as [m' b].
      simpl in *. rewrite IH. intuition congruence.
Qed.

Lemma insert_fresh k v m :
  ~ In k (StdMap.keys m) -> snd (StdMap.insert k v m) = true.
Proof.
  induction m as [|[k0 v0] m IH]; simpl; intros H; [reflexivity|].
  destruct (StdMap.compare k k0) eqn:E; simpl.
  - apply compare_eq in E. intuition congruence.
  - reflexivity.
  - destruct (StdMap.insert k v m) as [m' b]. simpl in *. apply IH. tauto.
Qed.

Lemma insert_present k v m :
  StdMap.sorted m -> In k (StdMap.keys m) -> StdMap.insert k v m = (m, false).
Proof.
  unfold StdMap.sorted.
  induction m as [|[k0 v0] m IH]; simpl; intros Hs Hin; [contradiction|].
  inversion Hs as [|? ? Hs' Hall]; subst.
  destruct (StdMap.compare k k0) eqn:E.
  - reflexivity.
  - exfalso. destruct Hin as [<-|Hin].
    + rewrite compare_refl in E. discriminate.
    + rewrite Forall_forall in Hall. specialize (Hall _ Hin).
      apply (lt_irrefl k). now apply lt_trans with k0.
  - destruct Hin as [<-|Hin].
    + rewrite compare_refl in E. discriminate.
    + now rewrite IH.
Qed.

Lemma insert_sorted k v m :
  StdMap.sorted m -> StdMap.sorted (fst (StdMap.insert k v m)).
Proof.
  unfold StdMap.sorted.
  induction m as [|[k0 v0] m IH]; simpl; intros Hs.
  - repeat constructor.
  - inversion Hs as [|? ? Hs' Hall]; subst.
    destruct (StdMap.compare k k0) eqn:E; simpl.
    + exact Hs.
    + constructor; [exact Hs|]. constructor; [exact E|].
      eapply Forall_impl; [|exact Hall]. intros a Ha.
      now apply lt_trans with k0.
    + pose proof (insert_keys k v m) as Hk.
      specialize (IH Hs').
      destruct (StdMap.insert k v m) as [m' b]. simpl in *.
      constructor; [exact IH|].
      apply Forall_forall. intros a Ha. apply Hk in Ha.
      destruct Ha as [[_ ->]|Ha]; [now apply gt_lt|].
      rewrite Forall_forall in Hall. auto.
Qed.

Lemma insert_perm k v m :
  snd (StdMap.insert k v m) = true ->
  Permutation (StdMap.keys (fst (StdMap.insert k v m))) (k :: StdMap.keys m).
Proof.
  induction m as [|[k0 v0] m IH]; simpl; intros H; [reflexivity|].
  destruct (StdMap.compare k k0) eqn:E; simpl in *.
  - discriminate.
  - reflexivity.
  - destruct (StdMap.insert k v m) as [m' b]. simpl in *.
    rewrite (IH H). apply perm_swap.
Qed.
End MapFacts.

(** ** Induction on encodings *)

Lemma Term_nested_ind (P : Term -> Prop) :
  (forall negative m, P (TInt negative m)) ->
  (forall s, P (TString s)) ->
  (forall items, Forall P items -> P (TList items)) ->
  (forall entries, Forall (fun kv => P (snd kv)) entries -> P (TDict entries)) ->
  forall t, P t.
Proof.
  intros HInt HStr HList HDict.
  fix IH 1. intros [negative m|s|items|entries].
  - apply HInt.
  - apply HStr.
  - apply HList. induction items as [|t items IHitems]; constructor.
    + apply IH.
    + exact IHitems.
  - apply HDict. induction entries as [|[k t] entries IHentries]; constructor.
    + apply IH.
    + exact IHentries.
Qed.

Lemma encode_string_head (s : bytes) :
  exists c rest, encode_string s = c :: rest /\ isdigit c = true.
Proof.
  unfold encode_string.
  destruct (decimal_head (N.of_nat (List.length s))) as (c & ds & Hd & _).
  pose proof (decimal_digits (N.of_nat (List.length s))) as Hds.
  rewrite Hd in *. inversion Hds; subst.
  exists c, (ds ++ ":"%char :: s). split; [reflexivity|assumption].
Qed.

Lemma encoding_head (t : Term) :
  exists c rest, encoding t = c :: rest /\ lead t c.
Proof.
  destruct t as [negative m|s|items|entries]; cbn [encoding].
  - eexists _, _. split; [reflexivity|constructor].
  - destruct (encode_string_head s) as (c & rest & -> & Hc).
    exists c, rest. split; [reflexivity|now constructor].
  - eexists _, _. split; [reflexivity|constructor].
  - eexists _, _. split; [reflexivity|constructor].
Qed.

Lemma lead_not_e (t : Term) (c : ascii) : lead t c -> chr_eqb c "e" = false.
Proof.
  intros [ | | | ]; try reflexivity.
  now apply isdigit_not.
Qed.

Lemma encoding_length_pos (t : Term) : (1 <= List.length (encoding t))%nat.
Proof.
  destruct (encoding_head t) as (c & rest & -> & _). simpl. lia.
Qed.

Lemma concat_length_items {A} (f : A -> bytes) (l : list A) :
  (forall a, In a l -> (1 <= List.length (f a))%nat) ->
  (List.length l <= List.length (List.concat (map f l)))%nat.
Proof.
  induction l as [|a l IH]; simpl; intros H; [lia|].
  rewrite List.length_app.
  pose proof (H a (or_introl eq_refl)).
  assert (List.length l <= List.length (List.concat (map f l)))%nat
    by (apply IH; auto).
  lia.
Qed.

Lemma concat_length_In {A} (f : A -> bytes) (l : list A) (a : A) :
  In a l -> (List.length (f a) <= List.length (List.concat (map f l)))%nat.
Proof.
  induction l as [|b l IH]; simpl; intros H; [contradiction|].
  rewrite List.length_app. destruct H as [->|H]; [lia|].
  specialize (IH H). lia.
Qed.

(** ** The loops *)

Section LoopFacts.
Variable pv : bytes -> Z -> parsed BencodeValue.
Variable input : bytes.
Hypothesis Hbound : size input < 2 ^ 64.

Lemma parseList_loop_run (items : list Term) :
  forall fuel pos acc tail,
    Forall (decodes pv input) items ->
    cursor input pos (List.concat (map encoding items) ++ tail) ->
    parseList_loop pv (List.length items + fuel) input pos acc
    = parseList_loop pv fuel input
        (pos + size (List.concat (map encoding items)))
        (acc ++ map denote items).
Proof.
  induction items as [|t items IH]; intros fuel pos acc tail Hdec H.
  - simpl. rewrite size_nil, Z.add_0_r, app_nil_r. reflexivity.
  - inversion Hdec as [|? ? Ht Hitems]; subst.
    cbn [map List.concat] in *. rewrite <- app_assoc in H.
    cbn [List.length Nat.add parseList_loop].
    destruct (encoding_head t) as (c & rest & Hc & Hlead).
    pose proof H as H'. rewrite Hc in H'. simpl app in H'.
    rewrite (cursor_ltb _ _ _ _ H'), (cursor_byte _ _ _ _ H').
    rewrite (lead_not_e _ _ Hlead). cbn [andb negb].
    rewrite (Ht _ _ H). cbn [bind].
    rewrite (IH _ _ _ tail Hitems) by (now apply cursor_app in H).
    rewrite size_app, <- app_assoc. simpl app.
    f_equal. lia.
Qed.

Lemma parseList_loop_stop fuel pos acc post :
  cursor input pos ("e"%char :: post) ->
  parseList_loop pv (S fuel) input pos acc = Ok (acc, pos).
Proof.
  intros H. cbn [parseList_loop].
  rewrite (cursor_byte _ _ _ _ H), chr_eqb_refl.
  now rewrite andb_false_r.
Qed.

Lemma parseDict_loop_run (entries : list (bytes * Term)) :
  forall fuel pos acc tail,
    Forall (fun kv => decodes pv input (snd kv)) entries ->
    cursor input pos (List.concat (map encode_entry entries) ++ tail) ->
    NoDup (map fst entries) ->
    (forall k, In k (map fst entries) -> ~ In k (StdMap.keys acc)) ->
    parseDict_loop pv (List.length entries + fuel) input pos acc
    = parseDict_loop pv fuel input
        (pos + size (List.concat (map encode_entry entries)))
        (insert_all (map denote_entry entries) acc).
Proof.
  induction entries as [|[k t] entries IH];
    intros fuel pos acc tail Hdec H Hnodup Hfresh.
  - simpl. rewrite size_nil, Z.add_0_r. reflexivity.
  - inversion Hdec as [|? ? Ht Hentries]; subst.
    inversion Hnodup as [|? ? Hk Hnodup']; subst.
    cbn [snd] in Ht.
    assert (Hsz : size (List.concat (map encode_entry ((k, t) :: entries)))
                  = size (encode_string k) + size (encoding t)
                    + size (List.concat (map encode_entry entries))).
    { cbn [map List.concat]. unfold encode_entry at 1. cbn [fst snd].
      rewrite !size_app. lia. }
    assert (Hall : insert_all (map denote_entry ((k, t) :: entries)) acc
                   = insert_all (map denote_entry entries)
                       (fst (StdMap.insert k (denote t) acc)))
      by reflexivity.
    rewrite Hsz, Hall. clear Hsz Hall.
    cbn [map List.concat fst snd] in H, Hfresh.
    unfold encode_entry at 1 in H. cbn [fst snd] in H.
    rewrite <- !app_assoc in H.
    cbn [List.length Nat.add parseDict_loop].
    destruct (encode_string_head k) as (c & rest & Hc & Hdigit).
    pose proof H as H'. rewrite Hc in H'. simpl app in H'.
    rewrite (cursor_ltb _ _ _ _ H'), (cursor_byte _ _ _ _ H').
    rewrite (isdigit_not c "e" Hdigit eq_refl), Hdigit. cbn [andb negb].
    rewrite (parseString_ok _ _ _ _ H Hbound). cbn [bind].
    apply cursor_app in H.
    rewrite (Ht _ _ H). cbn [bind]. cbv beta iota.
    apply cursor_app in H.
    pose proof (insert_fresh k (denote t) acc) as Hins.
    pose proof (insert_keys k (denote t) acc) as Hkeys.
    destruct (StdMap.insert k (denote t) acc) as [acc' b] eqn:E.
    cbn [fst snd] in *.
    assert (Hb : b = true) by (apply Hins, Hfresh; now left).
    subst b. cbv beta iota. cbn [negb].
    rewrite (IH _ _ _ tail Hentries H Hnodup').
    + f_equal. lia.
    + intros k' Hk' Hin. apply Hkeys in Hin.
      destruct Hin as [[_ ->]|Hin]; [contradiction|].
      apply (Hfresh k'); [now right|assumption].
Qed.

Lemma parseDict_loop_stop fuel pos acc post :
  cursor input pos ("e"%char :: post) ->
  parseDict_loop pv (S fuel) input pos acc = Ok (acc, pos).
Proof.
  intros H. cbn [parseDict_loop].
  rewrite (cursor_byte _ _ _ _ H), chr_eqb_refl.
  now rewrite andb_false_r.
Qed.
End LoopFacts.

(** ** The decoder on well-formed encodings *)

(** Wherever a well-formed encoding stands in a buffer, [parseValue] at
    its first byte returns its value and leaves the cursor just behind it. *)
Theorem parseValue_ok (t : Term) :
  unique_keys t = true ->
  forall fuel input pos post,
    cursor input pos (encoding t ++ post) ->
    size input < 2 ^ 64 ->
    (List.length (encoding t) < fuel)%nat ->
    parseValue fuel input pos = Ok (denote t, pos + size (encoding t)).
Proof.
  induction t as [negative m|s|items IH|entries IH] using Term_nested_ind;
    intros Hwf fuel input pos post H Hbound Hfuel;
    (destruct fuel as [|fuel]; [lia|]);
    match type of H with cursor _ _ (encoding ?u ++ _) =>
      destruct (encoding_head u) as (c & rest & Hc & Hlead) end;
    pose proof H as H'; rewrite Hc in H'; simpl app in H';
    cbn [parseValue];
    rewrite (cursor_leb _ _ _ _ H'), (cursor_byte _ _ _ _ H').
  - inversion Hlead; subst c.
    change (isdigit "i") with false. rewrite chr_eqb_refl. cbv beta iota.
    rewrite (parseInt_ok _ _ _ _ _ H). reflexivity.
  - inversion Hlead as [|? ? Hdigit| |]; subst.
    rewrite Hdigit. cbn [encoding] in H |- *.
    rewrite (parseString_ok _ _ _ _ H Hbound). reflexivity.
  - inversion Hlead; subst c. clear H' Hc Hlead.
    change (isdigit "l") with false.
    change (chr_eqb "l" "i") with false. rewrite chr_eqb_refl. cbv beta iota.
    cbn [encoding unique_keys] in *.
    rewrite <- app_comm_cons, <- app_assoc in H. simpl app in H.
    simpl List.length in Hfuel. rewrite List.length_app in Hfuel.
    simpl List.length in Hfuel.
    pose proof (concat_length_items encoding items
                  (fun a _ => encoding_length_pos a)) as Hlen.
    unfold parseList.
    rewrite (cursor_leb _ _ _ _ H), (cursor_byte _ _ _ _ H), chr_eqb_refl.
    cbn [orb negb]. apply cursor_next in H.
    replace fuel
      with (List.length items + S (fuel - List.length items - 1))%nat by lia.
    rewrite (parseList_loop_run _ _ items _ _ _ ("e"%char :: post));
      [| |exact H].
    + apply cursor_app in H.
      rewrite (parseList_loop_stop _ _ _ _ _ _ H). cbn [bind]. cbv beta iota.
      rewrite (cursor_leb _ _ _ _ H), (cursor_byte _ _ _ _ H), chr_eqb_refl.
      cbn [orb negb denote app bind]. cbv beta iota. f_equal. f_equal.
      rewrite size_cons, size_app, size_cons, size_nil. lia.
    + rewrite forallb_forall in Hwf. rewrite Forall_forall in IH |- *.
      intros t Ht pos' post' Hcur.
      pose proof (concat_length_In encoding items t Ht).
      apply (IH t Ht (Hwf t Ht) _ _ _ post' Hcur Hbound). lia.
  - inversion Hlead; subst c. clear H' Hc Hlead.
    change (isdigit "d") with false.
    change (chr_eqb "d" "i") with false.
    change (chr_eqb "d" "l") with false. rewrite chr_eqb_refl. cbv beta iota.
    cbn [encoding unique_keys] in *.
    apply andb_true_iff in Hwf. destruct Hwf as [Hdistinct Hwf].
    apply distinct_NoDup in Hdistinct.
    change (map (fun kv => encode_string (fst kv) ++ encoding (snd kv)) entries)
      with (map encode_entry entries) in *.
    rewrite <- app_comm_cons, <- app_assoc in H. simpl app in H.
    simpl List.length in Hfuel. rewrite List.length_app in Hfuel.
    simpl List.length in Hfuel.
    assert (Hlen : (List.length entries
                    <= List.length (List.concat (map encode_entry entries)))%nat).
    { apply concat_length_items. intros [k t] _. unfold encode_entry.
      rewrite List.length_app. pose proof (encoding_length_pos t).
      cbn [snd]. lia. }
    unfold parseDict.
    rewrite (cursor_leb _ _ _ _ H), (cursor_byte _ _ _ _ H), chr_eqb_refl.
    cbn [orb negb]. apply cursor_next in H.
    replace fuel
      with (List.length entries + S (fuel - List.length entries - 1))%nat by lia.
    rewrite (parseDict_loop_run _ _ Hbound entries _ _ _ ("e"%char :: post));
      [| |exact H|exact Hdistinct|intros k _ []].
    + apply cursor_app in H.
      rewrite (parseDict_loop_stop _ _ _ _ _ _ H). cbn [bind]. cbv beta iota.
      rewrite (cursor_leb _ _ _ _ H), (cursor_byte _ _ _ _ H), chr_eqb_refl.
      cbn [orb negb denote app bind]. cbv beta iota. f_equal. f_equal.
      rewrite size_cons, size_app, size_cons, size_nil. lia.
    + rewrite forallb_forall in Hwf. rewrite Forall_forall in IH |- *.
      intros [k t] Hkt pos' post' Hcur. cbn [snd] in *.
      pose proof (concat_length_In encode_entry entries (k, t) Hkt) as Hle.
      unfold encode_entry in Hle at 1. rewrite List.length_app in Hle.
      cbn [fst snd] in Hle.
      apply (IH (k, t) Hkt (Hwf (k, t) Hkt) _ _ _ post' Hcur Hbound).
      cbn [snd]. lia.
Qed.

Lemma cursor_whole (input : bytes) : cursor input 0 (input ++ []).
Proof. rewrite app_nil_r. apply cursor_start. Qed.

Lemma parseValue_int fuel input pos negative m post :
  cursor input pos (encoding (TInt negative m) ++ post) ->
  parseValue (S fuel) input pos
  = Ok (BInt (int_value negative m), pos + size (encoding (TInt negative m))).
Proof.
  intros H. pose proof H as H'. cbn [encoding] in H'. simpl app in H'.
  cbn [parseValue].
  rewrite (cursor_leb _ _ _ _ H'), (cursor_byte _ _ _ _ H').
  change (isdigit "i") with false. rewrite chr_eqb_refl. cbv beta iota.
  rewrite (parseInt_ok _ _ _ _ _ H). reflexivity.
Qed.

Lemma parseValue_string fuel input pos s post :
  cursor input pos (encode_string s ++ post) ->
  size input < 2 ^ 64 ->
  parseValue (S fuel) input pos = Ok (BString s, pos + size (encode_string s)).
Proof.
  intros H Hbound.
  destruct (encode_string_head s) as (c & rest & Hc & Hdigit).
  pose proof H as H'. rewrite Hc in H'. simpl app in H'.
  cbn [parseValue].
  rewrite (cursor_leb _ _ _ _ H'), (cursor_byte _ _ _ _ H'), Hdigit.
  rewrite (parseString_ok _ _ _ _ H Hbound). reflexivity.
Qed.

Lemma int_value_canonical (n : Z) :
  - 2 ^ 63 <= n < 2 ^ 63 -> int_value (n <? 0) (Z.abs_N n) = n.
Proof.
  intros H. unfold int_value. rewrite N2Z.inj_abs_N.
  destruct (Z.ltb_spec n 0) as [Hn|Hn].
  - rewrite wrap64_opp, Z.abs_neq by lia.
    rewrite Z.opp_involutive. now apply wrap64_small.
  - rewrite Z.abs_eq by lia. now apply wrap64_small.
Qed.

(** C2: for every 64-bit integer [n], decoding ['i'], the decimal digits of
    [n] with a ['-'] in front when [n] is negative, and ['e'] succeeds and
    yields [n]; [i0e] decodes to 0 and [i-0e] is accepted and decodes to 0. *)
Theorem canonical_integer_decodes (n : Z) (fuel : nat) :
  - 2 ^ 63 <= n < 2 ^ 63 ->
  parse (S fuel)
        ("i"%char :: (if n <? 0 then ["-"%char] else [])
                  ++ decimal (Z.abs_N n) ++ ["e"%char])
  = Ok (BInt n)
  /\ parse (S fuel) (str "i0e") = Ok (BInt 0)
  /\ parse (S fuel) (str "i-0e") = Ok (BInt 0).
Proof.
  intros Hn. split; [|split].
  - unfold parse.
    pose proof (parseValue_int fuel _ 0 (n <? 0) (Z.abs_N n) []
                  (cursor_whole _)) as E.
    cbn [encoding] in E. rewrite E.
    cbn [bind]. cbv beta iota. now rewrite int_value_canonical.
  - unfold parse.
    exact (f_equal (fun r => '(v, _) <- r ;; Ok v)
             (parseValue_int fuel (str "i0e") 0 false 0 [] (cursor_whole _))).
  - unfold parse.
    exact (f_equal (fun r => '(v, _) <- r ;; Ok v)
             (parseValue_int fuel (str "i-0e") 0 true 0 [] (cursor_whole _))).
Qed.

Lemma canonical_integer_decodes_witness :
  parse 1 (str "i-9223372036854775808e") = Ok (BInt (-9223372036854775808)).
Proof.
  apply (canonical_integer_decodes (-9223372036854775808) 0). lia.
Defined.

(** C3: for every length [L] and byte sequence [B] of length [L], zero bytes
    and non-text bytes included, decoding the digits of [L], a [':'] and
    then [B] yields the byte string [B]; [0:] decodes to the empty string. *)
Theorem length_prefixed_string_decodes (L : N) (B : bytes) (fuel : nat) :
  N.of_nat (List.length B) = L ->
  size (decimal L ++ ":"%char :: B) < 2 ^ 64 ->
  parse (S fuel) (decimal L ++ ":"%char :: B) = Ok (BString B)
  /\ parse (S fuel) (str "0:") = Ok (BString []).
Proof.
  intros HL Hbound. subst L. split.
  - unfold parse.
    pose proof (parseValue_string fuel _ 0 B [] (cursor_whole _) Hbound) as E.
    unfold encode_string in E. rewrite E. reflexivity.
  - unfold parse.
    exact (f_equal (fun r => '(v, _) <- r ;; Ok v)
             (parseValue_string fuel (str "0:") 0 [] [] (cursor_whole _) eq_refl)).
Qed.

Lemma length_prefixed_string_decodes_witness :
  parse 1 (str "5:a" ++ [zero; ascii_of_N 255] ++ str ":e")
  = Ok (BString (str "a" ++ [zero; ascii_of_N 255] ++ str ":e")).
Proof.
  apply (length_prefixed_string_decodes
           5 (str "a" ++ [zero; ascii_of_N 255] ++ str ":e") 0);
    reflexivity.
Defined.

(** C4: a buffer made of one well-formed encoding followed by arbitrary
    trailing bytes decodes, and to the same value as the encoding alone. *)
Theorem trailing_bytes_ignored (t : Term) (trailing : bytes) (fuel : nat) :
  unique_keys t = true ->
  size (encoding t ++ trailing) < 2 ^ 64 ->
  (List.length (encoding t) < fuel)%nat ->
  parse fuel (encoding t ++ trailing) = Ok (denote t)
  /\ parse fuel (encoding t ++ trailing) = parse fuel (encoding t).
Proof.
  intros Hwf Hbound Hfuel.
  assert (Hbound' : size (encoding t) < 2 ^ 64).
  { rewrite size_app in Hbound. pose proof (size_nonneg trailing). lia. }
  assert (E1 : parse fuel (encoding t ++ trailing) = Ok (denote t)).
  { unfold parse.
    rewrite (parseValue_ok t Hwf fuel _ 0 trailing (cursor_start _) Hbound Hfuel).
    reflexivity. }
  assert (E2 : parse fuel (encoding t) = Ok (denote t)).
  { unfold parse.
    rewrite (parseValue_ok t Hwf fuel _ 0 [] (cursor_whole _) Hbound' Hfuel).
    reflexivity. }
  split; congruence.
Qed.

Lemma trailing_bytes_ignored_witness :
  parse 40 (str "d1:bi-7e1:al2:xy0:eei1egarbage")
  = Ok (BDict [(str "a", BList [BString (str "xy"); BString []]);
               (str "b", BInt (-7))])
  /\ parse 40 (str "d1:bi-7e1:al2:xy0:eei1egarbage")
     = parse 40 (str "d1:bi-7e1:al2:xy0:ee").
Proof.
  apply (trailing_bytes_ignored
           (TDict [(str "b", TInt true 7);
                   (str "a", TList [TString (str "xy"); TString []])])
           (str "i1egarbage") 40).
  - reflexivity.
  - reflexivity.
  - vm_compute. lia.
Defined.

(** C9: the digits of an integer literal are accumulated with no overflow
    check: a literal of any magnitude decodes, to its value modulo 2^64;
    [i9223372036854775808e] decodes to -9223372036854775808. *)
Theorem integer_overflow_wraps (m : N) (fuel : nat) :
  parse (S fuel) ("i"%char :: decimal m ++ ["e"%char])
  = Ok (BInt (wrap64 (Z.of_N m)))
  /\ (wrap64 (Z.of_N m) = Z.of_N m <-> Z.of_N m < 2 ^ 63)
  /\ parse (S fuel) (str "i9223372036854775808e")
     = Ok (BInt (-9223372036854775808))
  /\ -9223372036854775808 <> 9223372036854775808.
Proof.
  split; [|split; [|split]].
  - unfold parse.
    pose proof (parseValue_int fuel _ 0 false m [] (cursor_whole _)) as E.
    cbn [encoding] in E. simpl app in E. rewrite E. reflexivity.
  - split.
    + intros E. pose proof (wrap64_range (Z.of_N m)). lia.
    + intros H. apply wrap64_small. lia.
  - unfold parse.
    exact (f_equal (fun r => '(v, _) <- r ;; Ok v)
             (parseValue_int fuel (str "i9223372036854775808e") 0 false
                9223372036854775808 [] (cursor_whole _))).
  - discriminate.
Qed.

(** ** Fuel

    A call that ends with some fuel ends the same way with more. *)

Section MoreFuel.
Variables pv pv' : bytes -> Z -> parsed BencodeValue.
Hypothesis Hpv : refines pv pv'.

Lemma parseList_loop_more_fuel (fuel : nat) :
  forall fuel' input pos acc,
    (fuel <= fuel')%nat ->
    finished (parseList_loop pv fuel input pos acc) ->
    parseList_loop pv' fuel' input pos acc = parseList_loop pv fuel input pos acc.
Proof.
  induction fuel as [|fuel IH]; intros fuel' input pos acc Hle Hfin.
  - now contradiction Hfin.
  - destruct fuel' as [|fuel']; [lia|]. cbn [parseList_loop] in *.
    destruct ((pos <? size input) && negb (chr_eqb (byte_at input pos) "e"));
      [|reflexivity].
    pose proof (Hpv input pos) as Hrec.
    destruct (pv input pos) as [[v pos']| e |].
    + rewrite Hrec by discriminate. cbn [bind] in *. apply IH; [lia|exact Hfin].
    + rewrite Hrec by discriminate. reflexivity.
    + now contradiction Hfin.
Qed.

Lemma parseDict_loop_more_fuel (fuel : nat) :
  forall fuel' input pos acc,
    (fuel <= fuel')%nat ->
    finished (parseDict_loop pv fuel input pos acc) ->
    parseDict_loop pv' fuel' input pos acc = parseDict_loop pv fuel input pos acc.
Proof.
  induction fuel as [|fuel IH]; intros fuel' input pos acc Hle Hfin.
  - now contradiction Hfin.
  - destruct fuel' as [|fuel']; [lia|]. cbn [parseDict_loop] in *.
    destruct ((pos <? size input) && negb (chr_eqb (byte_at input pos) "e"));
      [|reflexivity].
    destruct (negb (isdigit (byte_at input pos))); [reflexivity|].
    destruct (parseString input pos) as [[key pos1]| e |]; try reflexivity.
    cbn [bind] in *.
    pose proof (Hpv input pos1) as Hrec.
    destruct (pv input pos1) as [[v pos2]| e |].
    + rewrite Hrec by discriminate. cbn [bind] in *.
      destruct (StdMap.insert key v acc) as [acc' fresh].
      destruct (negb fresh); [reflexivity|]. apply IH; [lia|exact Hfin].
    + rewrite Hrec by discriminate. reflexivity.
    + now contradiction Hfin.
Qed.
End MoreFuel.

Lemma parseValue_more_fuel (fuel : nat) :
  forall fuel', (fuel <= fuel')%nat -> refines (parseValue fuel) (parseValue fuel').
Proof.
  induction fuel as [|fuel IH]; intros fuel' Hle input pos Hfin.
  - now contradiction Hfin.
  - destruct fuel' as [|fuel']; [lia|].
    assert (Hrec : refines (parseValue fuel) (parseValue fuel'))
      by (apply IH; lia).
    cbn [parseValue] in *.
    destruct (size input <=? pos); [reflexivity|].
    destruct (isdigit (byte_at input pos)); [reflexivity|].
    destruct (chr_eqb (byte_at input pos) "i"); [reflexivity|].
    destruct (chr_eqb (byte_at input pos) "l").
    + unfold parseList in *.
      destruct ((size input <=? pos) || negb (chr_eqb (byte_at input pos) "l"));
        [reflexivity|].
      rewrite (parseList_loop_more_fuel _ _ Hrec fuel fuel'); [reflexivity|lia|].
      intros E. apply Hfin. now rewrite E.
    + destruct (chr_eqb (byte_at input pos) "d"); [|reflexivity].
      unfold parseDict in *.
      destruct ((size input <=? pos) || negb (chr_eqb (byte_at input pos) "d"));
        [reflexivity|].
      rewrite (parseDict_loop_more_fuel _ _ Hrec fuel fuel'); [reflexivity|lia|].
      intros E. apply Hfin. now rewrite E.
Qed.

Lemma parse_more_fuel (fuel fuel' : nat) (input : bytes) :
  (fuel <= fuel')%nat -> finished (parse fuel input) ->
  parse fuel' input = parse fuel input.
Proof.
  intros Hle Hfin. unfold parse in *.
  rewrite (parseValue_more_fuel fuel fuel' Hle input 0); [reflexivity|].
  intros E. apply Hfin. now rewrite E.
Qed.

(** ** Dictionaries: order of iteration, duplicate keys, keys that are not strings *)

Lemma insert_all_sorted (kvs : list (bytes * BencodeValue)) :
  forall acc, StdMap.sorted acc -> StdMap.sorted (insert_all kvs acc).
Proof.
  induction kvs as [|[k v] kvs IH]; intros acc H; [exact H|].
  apply IH. now apply insert_sorted.
Qed.

Lemma insert_all_perm (kvs : list (bytes * BencodeValue)) :
  forall acc,
    NoDup (map fst kvs) ->
    (forall k, In k (map fst kvs) -> ~ In k (StdMap.keys acc)) ->
    Permutation (StdMap.keys (insert_all kvs acc)) (map fst kvs ++ StdMap.keys acc).
Proof.
  induction kvs as [|[k v] kvs IH]; intros acc Hnodup Hfresh; [reflexivity|].
  inversion Hnodup as [|? ? Hk Hnodup']; subst.
  cbn [map fst] in *.
  assert (Hins : snd (StdMap.insert k v acc) = true)
    by (apply insert_fresh, Hfresh; now left).
  change (insert_all ((k, v) :: kvs) acc)
    with (insert_all kvs (fst (StdMap.insert k v acc))).
  rewrite IH.
  - rewrite (insert_perm k v acc Hins). simpl.
    symmetry. apply Permutation_middle.
  - assumption.
  - intros k' Hk' Hin. apply insert_keys in Hin.
    destruct Hin as [[_ ->]|Hin]; [contradiction|].
    apply (Hfresh k'); [now right|assumption].
Qed.

Lemma denote_entry_keys (entries : list (bytes * Term)) :
  map fst (map denote_entry entries) = map fst entries.
Proof. rewrite map_map. reflexivity. Qed.

(** C1, as amended: a well-formed dictionary encoding decodes whatever the
    order of its keys in the source bytes, and the decoded dictionary
    iterates in ascending key order over exactly the keys of the source. *)
Theorem dictionary_iterates_in_key_order
    (entries : list (bytes * Term)) (fuel : nat) :
  unique_keys (TDict entries) = true ->
  size (encoding (TDict entries)) < 2 ^ 64 ->
  (List.length (encoding (TDict entries)) < fuel)%nat ->
  exists d : Dict,
    parse fuel (encoding (TDict entries)) = Ok (BDict d)
    /\ StronglySorted StdMap.lt (StdMap.keys d)
    /\ Permutation (StdMap.keys d) (keys_in_source entries).
Proof.
  intros Hwf Hbound Hfuel.
  exists (insert_all (map denote_entry entries) []).
  split; [|split].
  - unfold parse.
    rewrite (parseValue_ok _ Hwf fuel _ 0 [] (cursor_whole _) Hbound Hfuel).
    reflexivity.
  - apply (insert_all_sorted _ []). constructor.
  - cbn [unique_keys] in Hwf. apply andb_true_iff in Hwf.
    destruct Hwf as [Hdistinct _]. apply distinct_NoDup in Hdistinct.
    rewrite insert_all_perm.
    + rewrite denote_entry_keys. simpl. now rewrite app_nil_r.
    + now rewrite denote_entry_keys.
    + intros k _ [].
Qed.

Lemma dictionary_iterates_in_key_order_witness :
  exists d : Dict,
    parse 20 (str "d1:bi1e1:ai2ee") = Ok (BDict d)
    /\ StronglySorted StdMap.lt (StdMap.keys d)
    /\ Permutation (StdMap.keys d) [str "b"; str "a"].
Proof.
  apply (dictionary_iterates_in_key_order
           [(str "b", TInt false 1); (str "a", TInt false 2)] 20).
  - reflexivity.
  - reflexivity.
  - vm_compute. lia.
Defined.

(** C1, as stated, fails: the keys of [d1:bi1e1:ai2ee] appear in the order
    b, a; the decoded dictionary iterates a, b. *)
Lemma source_order_not_kept :
  let entries := [(str "b", TInt false 1); (str "a", TInt false 2)] in
  unique_keys (TDict entries) = true
  /\ encoding (TDict entries) = str "d1:bi1e1:ai2ee"
  /\ exists d : Dict,
       parse 20 (str "d1:bi1e1:ai2ee") = Ok (BDict d)
       /\ StdMap.keys d = [str "a"; str "b"]
       /\ StdMap.keys d <> keys_in_source entries.
Proof.
  split; [reflexivity|]. split; [reflexivity|].
  exists [(str "a", BInt 2); (str "b", BInt 1)].
  split; [reflexivity|]. split; [reflexivity|]. discriminate.
Qed.

Lemma first_duplicate (entries : list (bytes * Term)) :
  distinct (map fst entries) = false ->
  exists pre k t rest,
    entries = pre ++ (k, t) :: rest
    /\ NoDup (map fst pre) /\ In k (map fst pre).
Proof.
  induction entries as [|[k t] entries IH] using rev_ind; [discriminate|].
  intros H. destruct (distinct (map fst entries)) eqn:E.
  - apply distinct_NoDup in E.
    exists entries, k, t, []. split; [reflexivity|]. split; [assumption|].
    destruct (in_dec (list_eq_dec ascii_dec) k (map fst entries)) as [Hin|Hin];
      [assumption|exfalso].
    assert (Hnd : NoDup (map fst (entries ++ [(k, t)]))).
    { rewrite map_app. simpl.
      apply (Permutation_NoDup (Permutation_cons_append _ k)).
      now constructor. }
    apply distinct_NoDup in Hnd. congruence.
  - destruct (IH eq_refl) as (pre & k' & t' & rest & -> & Hnd & Hin).
    exists pre, k', t', (rest ++ [(k, t)]).
    rewrite <- app_assoc. auto.
Qed.

Lemma children_decode (fuel : nat) (input : bytes) (entries : list (bytes * Term)) :
  size input < 2 ^ 64 ->
  forallb (fun kv => unique_keys (snd kv)) entries = true ->
  (List.length (List.concat (map encode_entry entries)) < fuel)%nat ->
  Forall (fun kv => decodes (parseValue fuel) input (snd kv)) entries.
Proof.
  intros Hbound Hwf Hfuel.
  rewrite forallb_forall in Hwf. apply Forall_forall.
  intros [k t] Hkt pos post Hcur. cbn [snd] in *.
  pose proof (concat_length_In encode_entry entries (k, t) Hkt) as Hle.
  unfold encode_entry in Hle at 1. rewrite List.length_app in Hle.
  cbn [fst snd] in Hle.
  apply (parseValue_ok t (Hwf (k, t) Hkt) _ _ _ post Hcur Hbound). lia.
Qed.

Lemma entries_length (entries : list (bytes * Term)) :
  (List.length entries <= List.length (List.concat (map encode_entry entries)))%nat.
Proof.
  apply concat_length_items. intros [k t] _. unfold encode_entry.
  rewrite List.length_app. pose proof (encoding_length_pos t).
  cbn [snd]. lia.
Qed.

Section DictErrors.
Variable pv : bytes -> Z -> parsed BencodeValue.
Variable input : bytes.
Hypothesis Hbound : size input < 2 ^ 64.

Lemma parseDict_loop_duplicate pre k t tail fuel pos :
  Forall (fun kv => decodes pv input (snd kv)) pre ->
  decodes pv input t ->
  cursor input pos
    (List.concat (map encode_entry pre) ++ encode_entry (k, t) ++ tail) ->
  NoDup (map fst pre) ->
  In k (map fst pre) ->
  parseDict_loop pv (List.length pre + S fuel) input pos []
  = Throw DuplicateDictKey.
Proof.
  intros Hpre Ht H Hnodup Hin.
  rewrite (parseDict_loop_run pv input Hbound pre _ _ _ _ Hpre H Hnodup)
    by (intros ? _ []).
  apply cursor_app in H.
  unfold encode_entry at 2 in H. cbn [fst snd] in H.
  rewrite <- app_assoc in H.
  cbn [parseDict_loop].
  destruct (encode_string_head k) as (c & rest & Hc & Hdigit).
  pose proof H as H'. rewrite Hc in H'. simpl app in H'.
  rewrite (cursor_ltb _ _ _ _ H'), (cursor_byte _ _ _ _ H').
  rewrite (isdigit_not c "e" Hdigit eq_refl), Hdigit. cbn [andb negb].
  rewrite (parseString_ok _ _ _ _ H Hbound). cbn [bind]. cbv beta iota.
  apply cursor_app in H.
  rewrite (Ht _ _ H). cbn [bind]. cbv beta iota.
  rewrite insert_present; [reflexivity| |].
  - apply (insert_all_sorted _ []). constructor.
  - eapply Permutation_in.
    + symmetry. apply insert_all_perm.
      * now rewrite denote_entry_keys.
      * intros ? _ [].
    + rewrite denote_entry_keys. apply in_or_app. now left.
Qed.

Lemma parseDict_loop_bad_key entries c rest fuel pos :
  Forall (fun kv => decodes pv input (snd kv)) entries ->
  cursor input pos (List.concat (map encode_entry entries) ++ c :: rest) ->
  NoDup (map fst entries) ->
  isdigit c = false -> c <> "e"%char ->
  parseDict_loop pv (List.length entries + S fuel) input pos []
  = Throw DictKeyMustBeString.
Proof.
  intros Hdec H Hnodup Hc He.
  rewrite (parseDict_loop_run pv input Hbound entries _ _ _ _ Hdec H Hnodup)
    by (intros ? _ []).
  apply cursor_app in H. cbn [parseDict_loop].
  rewrite (cursor_ltb _ _ _ _ H), (cursor_byte _ _ _ _ H), Hc.
  destruct (chr_eqb c "e") eqn:E; [apply chr_eqb_eq in E; contradiction|].
  reflexivity.
Qed.
End DictErrors.

Lemma parse_dict_loop (fuel : nat) (body : bytes) :
  parse (S fuel) ("d"%char :: body)
  = '(v, _) <-
      ('(d, pos) <-
         ('(result, pos) <-
            parseDict_loop (parseValue fuel) fuel ("d"%char :: body) 1 [] ;;
          if (size ("d"%char :: body) <=? pos)
             || negb (chr_eqb (byte_at ("d"%char :: body) pos) "e")
          then Throw DictMissingE
          else Ok (result, pos + 1)) ;;
       Ok (BDict d, pos)) ;;
    Ok v.
Proof.
  unfold parse. cbn [parseValue].
  pose proof (cursor_start ("d"%char :: body)) as H.
  rewrite (cursor_leb _ _ _ _ H), (cursor_byte _ _ _ _ H).
  change (isdigit "d") with false.
  change (chr_eqb "d" "i") with false.
  change (chr_eqb "d" "l") with false. rewrite chr_eqb_refl. cbv beta iota.
  unfold parseDict.
  rewrite (cursor_leb _ _ _ _ H), (cursor_byte _ _ _ _ H), chr_eqb_refl.
  reflexivity.
Qed.

(** C6: a dictionary encoding in which a key appears a second time fails
    with "Duplicate dictionary key"; a dictionary encoding with, at a key
    position, a lead byte that is neither a digit nor the closing ['e']
    fails, with "Invalid dictionary key: must be string" when the entries
    before it have different keys. *)
Theorem malformed_dictionary_keys_rejected
    (entries : list (bytes * Term)) (tail : bytes) (fuel : nat) :
  let input := "d"%char :: List.concat (map encode_entry entries) ++ tail in
  forallb (fun kv => unique_keys (snd kv)) entries = true ->
  size input < 2 ^ 64 ->
  (List.length input < fuel)%nat ->
  (distinct (map fst entries) = false ->
   parse fuel input = Throw DuplicateDictKey)
  /\ (forall c rest,
        tail = c :: rest -> isdigit c = false -> c <> "e"%char ->
        exists e, parse fuel input = Throw e
                  /\ (distinct (map fst entries) = true ->
                      e = DictKeyMustBeString)).
Proof.
  intros input Hwf Hbound Hfuel.
  destruct fuel as [|fuel]; [lia|].
  pose proof (entries_length entries) as Hlen.
  assert (Hsize : List.length input
                  = S (List.length (List.concat (map encode_entry entries))
                       + List.length tail)).
  { unfold input. simpl. now rewrite List.length_app. }
  pose proof (children_decode fuel input entries Hbound Hwf) as Hdec.
  specialize (Hdec ltac:(lia)).
  pose proof (cursor_next _ _ _ _ (cursor_start input)) as Hcur.
  change (0 + 1) with 1 in Hcur.
  assert (Hdup : distinct (map fst entries) = false ->
                 parse (S fuel) input = Throw DuplicateDictKey).
  { intros Hd.
    destruct (first_duplicate entries Hd) as (pre & k & t & rest & E & Hnd & Hin).
    unfold input at 1. rewrite parse_dict_loop. fold input.
    rewrite E, map_app, concat_app in Hcur. cbn [map List.concat] in Hcur.
    rewrite <- !app_assoc in Hcur.
    rewrite E in Hdec. apply Forall_app in Hdec. destruct Hdec as [Hpre Ht].
    inversion Ht as [|? ? Ht' _]; subst. cbn [snd] in Ht'.
    rewrite List.length_app in Hlen. cbn [List.length] in Hlen.
    remember (parseValue fuel) as pv eqn:Hpv.
    replace fuel
      with (List.length pre + S (fuel - List.length pre - 1))%nat by lia.
    rewrite (parseDict_loop_duplicate pv input Hbound pre k t _ _ 1
               Hpre Ht' Hcur Hnd Hin).
    reflexivity. }
  split; [exact Hdup|].
  intros c rest -> Hc He.
  destruct (distinct (map fst entries)) eqn:Hd.
  - exists DictKeyMustBeString. split; [|reflexivity].
    apply distinct_NoDup in Hd.
    unfold input at 1. rewrite parse_dict_loop. fold input.
    remember (parseValue fuel) as pv eqn:Hpv.
    replace fuel
      with (List.length entries + S (fuel - List.length entries - 1))%nat by lia.
    rewrite (parseDict_loop_bad_key pv input Hbound entries c rest _ 1
               Hdec Hcur Hd Hc He).
    reflexivity.
  - exists DuplicateDictKey. split; [auto|discriminate].
Qed.

Lemma malformed_dictionary_keys_rejected_witness :
  parse 20 (str "d1:ai1e1:ai2ee") = Throw DuplicateDictKey
  /\ parse 20 (str "d1:ai1ei5e3:fooe") = Throw DictKeyMustBeString.
Proof.
  split.
  - apply (malformed_dictionary_keys_rejected
             [(str "a", TInt false 1); (str "a", TInt false 2)] (str "e") 20);
      try reflexivity.
    vm_compute. lia.
  - destruct (malformed_dictionary_keys_rejected
                [(str "a", TInt false 1)] (str "i5e3:fooe") 20
                eq_refl eq_refl ltac:(vm_compute; lia)) as [_ H].
    destruct (H "i"%char (str "5e3:fooe") eq_refl eq_refl ltac:(discriminate))
      as (e & Hparse & He).
    rewrite (He eq_refl) in Hparse. exact Hparse.
Defined.

(** ** Malformed integers *)

Lemma parse_int (fuel : nat) (body : bytes) :
  parse (S fuel) ("i"%char :: body)
  = '(v, _) <- ('(i, pos) <- parseInt ("i"%char :: body) 0 ;; Ok (BInt i, pos)) ;;
    Ok v.
Proof.
  unfold parse. cbn [parseValue].
  pose proof (cursor_start ("i"%char :: body)) as H.
  rewrite (cursor_leb _ _ _ _ H), (cursor_byte _ _ _ _ H).
  change (isdigit "i") with false. rewrite chr_eqb_refl. reflexivity.
Qed.

Lemma parseInt_signed input pos rest :
  cursor input pos ("i"%char :: "-"%char :: rest) ->
  parseInt input pos = parseInt_number input (pos + 1 + 1) true
  /\ cursor input (pos + 1 + 1) rest.
Proof.
  intros H. unfold parseInt.
  rewrite (cursor_leb _ _ _ _ H), (cursor_byte _ _ _ _ H), chr_eqb_refl.
  apply cursor_next in H.
  rewrite (cursor_ltb _ _ _ _ H), (cursor_byte _ _ _ _ H), chr_eqb_refl.
  split; [reflexivity|]. now apply cursor_next in H.
Qed.

Lemma parseInt_unsigned_start input pos rest :
  cursor input pos ("i"%char :: rest) ->
  match rest with [] => True | c :: _ => chr_eqb c "-" = false end ->
  parseInt input pos = parseInt_number input (pos + 1) false
  /\ cursor input (pos + 1) rest.
Proof.
  intros H Hrest. unfold parseInt.
  rewrite (cursor_leb _ _ _ _ H), (cursor_byte _ _ _ _ H), chr_eqb_refl.
  apply cursor_next in H. split; [|exact H].
  destruct rest as [|c rest].
  - now rewrite (cursor_end_ltb _ _ H).
  - now rewrite (cursor_byte _ _ _ _ H), Hrest, andb_false_r.
Qed.

Lemma parseInt_number_no_digits input pos rest negative :
  cursor input pos rest -> stops rest ->
  parseInt_number input pos negative = Throw IntegerNoDigits.
Proof.
  intros H Hrest. unfold parseInt_number. destruct rest as [|c rest].
  - now rewrite (cursor_end_leb _ _ H).
  - simpl in Hrest.
    now rewrite (cursor_byte _ _ _ _ H), Hrest, orb_true_r.
Qed.

Lemma parseInt_number_leading_zero input pos d rest negative :
  cursor input pos ("0"%char :: d :: rest) -> chr_eqb d "e" = false ->
  parseInt_number input pos negative = Throw IntegerLeadingZeros.
Proof.
  intros H Hd. unfold parseInt_number.
  rewrite (cursor_leb _ _ _ _ H), (cursor_byte _ _ _ _ H).
  change (isdigit "0") with true. rewrite chr_eqb_refl.
  apply cursor_next in H.
  now rewrite (cursor_ltb _ _ _ _ H), (cursor_byte _ _ _ _ H), Hd.
Qed.

Lemma parseInt_number_unterminated input pos ds negative :
  cursor input pos ds -> ds <> [] -> Forall (fun c => isdigit c = true) ds ->
  parseInt_number input pos negative = Throw IntegerLeadingZeros
  \/ parseInt_number input pos negative = Throw IntegerMissingE.
Proof.
  intros H Hne Hds. unfold parseInt_number.
  destruct ds as [|c ds]; [contradiction|].
  inversion Hds as [|? ? Hc _]; subst.
  rewrite (cursor_leb _ _ _ _ H), (cursor_byte _ _ _ _ H), Hc.
  cbn [orb negb].
  destruct (chr_eqb c "0" && (pos + 1 <? size input)
            && negb (chr_eqb (byte_at input (pos + 1)) "e")); [now left|right].
  rewrite (cursor_skipn _ _ _ H).
  rewrite <- (app_nil_r (c :: ds)).
  rewrite parseInt_digits_spec by (auto; exact I).
  rewrite <- (app_nil_r (c :: ds)) in H. apply cursor_app in H.
  now rewrite (cursor_end_leb _ _ H).
Qed.

Lemma stops_no_minus (rest : bytes) :
  no_number rest ->
  stops rest /\ match rest with [] => True | c :: _ => chr_eqb c "-" = false end.
Proof.
  destruct rest as [|c rest]; simpl; [auto|].
  intros [Hd Hm]. split; [assumption|].
  destruct (chr_eqb c "-") eqn:E; [apply chr_eqb_eq in E; contradiction|reflexivity].
Qed.

(** C5: an input that begins with an integer literal with a leading zero,
    or with an incomplete integer literal (no digit after ['i'] or after
    the sign, or digits that run to the end of the input), fails to decode;
    so do [i01e], [i00e], [i], [ie] and [i-e]. *)
Theorem malformed_integer_rejected (negative : bool) (rest : bytes) (fuel : nat) :
  let sign := if negative then ["-"%char] else [] in
  (forall d, isdigit d = true ->
     parse (S fuel) ("i"%char :: sign ++ "0"%char :: d :: rest)
     = Throw IntegerLeadingZeros)
  /\ (no_number rest ->
      parse (S fuel) ("i"%char :: sign ++ rest) = Throw IntegerNoDigits)
  /\ (rest <> [] -> Forall (fun c => isdigit c = true) rest ->
      parse (S fuel) ("i"%char :: sign ++ rest) = Throw IntegerLeadingZeros
      \/ parse (S fuel) ("i"%char :: sign ++ rest) = Throw IntegerMissingE)
  /\ parse (S fuel) (str "i01e") = Throw IntegerLeadingZeros
  /\ parse (S fuel) (str "i00e") = Throw IntegerLeadingZeros
  /\ parse (S fuel) (str "i") = Throw IntegerNoDigits
  /\ parse (S fuel) (str "ie") = Throw IntegerNoDigits
  /\ parse (S fuel) (str "i-e") = Throw IntegerNoDigits.
Proof.
  intros sign.
  assert (Hstart : forall body,
            parseInt ("i"%char :: sign ++ body) 0
            = parseInt_number ("i"%char :: sign ++ body)
                (if negative then 0 + 1 + 1 else 0 + 1) negative
              /\ cursor ("i"%char :: sign ++ body)
                   (if negative then 0 + 1 + 1 else 0 + 1) body
            \/ negative = false
               /\ match body with [] => False | c :: _ => chr_eqb c "-" = true end).
  { intros body. unfold sign. destruct negative.
    - left. apply parseInt_signed, cursor_start.
    - destruct body as [|c body].
      + left. apply parseInt_unsigned_start; [apply cursor_start|exact I].
      + destruct (chr_eqb c "-") eqn:E; [right; auto|left].
        apply parseInt_unsigned_start; [apply cursor_start|exact E]. }
  assert (Hzero : forall d, isdigit d = true ->
            parse (S fuel) ("i"%char :: sign ++ "0"%char :: d :: rest)
            = Throw IntegerLeadingZeros).
  { intros d Hd. rewrite parse_int.
    destruct (Hstart ("0"%char :: d :: rest)) as [[E H]|[_ E]];
      [|discriminate E].
    rewrite E, (parseInt_number_leading_zero _ _ d rest); auto.
    now apply isdigit_not. }
  assert (Hnone : forall body, no_number body ->
            parse (S fuel) ("i"%char :: sign ++ body) = Throw IntegerNoDigits).
  { intros body Hbody. apply stops_no_minus in Hbody.
    destruct Hbody as [Hstops Hminus]. rewrite parse_int.
    destruct (Hstart body) as [[E H]|[_ E]].
    - rewrite E, (parseInt_number_no_digits _ _ body); auto.
    - destruct body; [contradiction|congruence]. }
  split; [exact Hzero|]. split; [apply Hnone|]. split.
  - intros Hne Hds. rewrite parse_int.
    destruct (Hstart rest) as [[E H]|[_ E]].
    + rewrite E.
      destruct (parseInt_number_unterminated _ _ rest negative H Hne Hds)
        as [-> | ->]; auto.
    + destruct rest as [|c rest']; [contradiction|].
      inversion Hds as [|? ? Hc _]; subst.
      rewrite (isdigit_not c "-" Hc eq_refl) in E. discriminate.
  - clear Hstart Hzero Hnone. repeat split; rewrite parse_int; reflexivity.
Qed.

Lemma malformed_integer_rejected_witness :
  parse 1 (str "i-037e") = Throw IntegerLeadingZeros
  /\ parse 1 (str "i-x") = Throw IntegerNoDigits
  /\ (parse 1 (str "i-12") = Throw IntegerLeadingZeros
      \/ parse 1 (str "i-12") = Throw IntegerMissingE).
Proof.
  split; [|split].
  - apply (proj1 (malformed_integer_rejected true (str "7e") 0) "3"%char).
    reflexivity.
  - apply (proj1 (proj2 (malformed_integer_rejected true (str "x") 0))).
    split; [reflexivity|discriminate].
  - apply (proj1 (proj2 (proj2 (malformed_integer_rejected true (str "12") 0)))).
    + discriminate.
    + repeat constructor.
Defined.

(** ** The metadata layer *)

Lemma parseFilesList_app (l1 l2 : List_) :
  forall self,
    TorrentFile.parseFilesList (l1 ++ l2) self
    = TorrentFile.parseFilesList l2 (TorrentFile.parseFilesList l1 self).
Proof.
  induction l1 as [|e l1 IH]; intros self; [reflexivity|].
  simpl app. cbn [TorrentFile.parseFilesList].
  destruct e as [i|s|l|d]; try apply IH.
  destruct (StdMap.find (str "length") d) as [[n|s|l|d']|]; try apply IH.
  destruct (StdMap.find (str "path") d) as [[n'|s|l|d']|]; apply IH.
Qed.

Lemma joinPath_strings (components : list bytes) :
  forall i path, 0 < i ->
    TorrentFile.joinPath (map BString components) i path
    = path ++ List.concat (map (fun s => "/"%char :: s) components).
Proof.
  induction components as [|c components IH]; intros i path Hi.
  - simpl. now rewrite app_nil_r.
  - cbn [map TorrentFile.joinPath List.concat].
    replace (0 <? i) with true by (symmetry; apply Z.ltb_lt; lia).
    rewrite IH by lia. change (str "/") with ["/"%char].
    now rewrite <- !app_assoc.
Qed.

Lemma joinPath_join_slash (components : list bytes) :
  TorrentFile.joinPath (map BString components) 0 [] = join_slash components.
Proof.
  destruct components as [|c components]; [reflexivity|].
  cbn [map TorrentFile.joinPath join_slash]. change (0 <? 0) with false.
  cbv iota. apply joinPath_strings. lia.
Qed.

Lemma parseFilesList_one (e : BencodeValue) (self : TorrentFile.t) :
  TorrentFile.parseFilesList [e] self
  = match e with
    | BDict d =>
        match StdMap.find (str "length") d, StdMap.find (str "path") d with
        | Some (BInt n), Some (BList pathList) =>
            add_file (TorrentFile.joinPath pathList 0 []) n self
        | _, _ => self
        end
    | _ => self
    end.
Proof.
  destruct e as [i|s|l|d]; reflexivity.
Qed.

(** C8, as amended: a file entry that is a dictionary with an integer
    [length] and a list [path] is added to the file list and its length to
    the total size, with the components joined with ['/'] as its path when
    they are all strings; an entry that is not a dictionary, or has no
    integer [length], or has no list [path], is passed over and changes
    nothing. *)
Theorem file_entries_kept_or_skipped
    (before after : List_) (e : BencodeValue) (self : TorrentFile.t) :
  let sofar := TorrentFile.parseFilesList before self in
  (forall d n pathList,
     e = BDict d ->
     StdMap.find (str "length") d = Some (BInt n) ->
     StdMap.find (str "path") d = Some (BList pathList) ->
     exists path,
       TorrentFile.parseFilesList (before ++ e :: after) self
       = TorrentFile.parseFilesList after (add_file path n sofar)
       /\ forall components,
            pathList = map BString components -> path = join_slash components)
  /\ (skipped_file_entry e = true ->
      TorrentFile.parseFilesList (before ++ e :: after) self
      = TorrentFile.parseFilesList after sofar).
Proof.
  intros sofar.
  assert (E : TorrentFile.parseFilesList (before ++ e :: after) self
              = TorrentFile.parseFilesList after
                  (TorrentFile.parseFilesList [e] sofar)).
  { rewrite parseFilesList_app.
    now rewrite (parseFilesList_app [e] after). }
  rewrite E, parseFilesList_one. split.
  - intros d n pathList -> Hlen Hpath. rewrite Hlen, Hpath.
    exists (TorrentFile.joinPath pathList 0 []). split; [reflexivity|].
    intros components ->. apply joinPath_join_slash.
  - unfold skipped_file_entry. destruct e as [i|s|l|d]; try reflexivity.
    destruct (StdMap.find (str "length") d) as [[n|s|l|d']|]; try reflexivity.
    destruct (StdMap.find (str "path") d) as [[n'|s|l|d']|];
      try reflexivity; discriminate.
Qed.

Lemma file_entries_kept_or_skipped_witness :
  TorrentFile.parseFilesList
    [BInt 0;
     BDict [(str "length", BInt 7);
            (str "path", BList [BString (str "a"); BString (str "bc")])]]
    TorrentFile.init
  = TorrentFile.make [] [] 0 [] [FileInfo.make (str "a/bc") 7] 7 [] 0 true
  /\ TorrentFile.parseFilesList
       [BInt 0; BDict [(str "length", BInt 1)]] TorrentFile.init
     = TorrentFile.init.
Proof.
  split.
  - destruct (file_entries_kept_or_skipped
                [BInt 0] []
                (BDict [(str "length", BInt 7);
                        (str "path",
                         BList [BString (str "a"); BString (str "bc")])])
                TorrentFile.init) as [Hkept _].
    destruct (Hkept _ 7 [BString (str "a"); BString (str "bc")]
                eq_refl eq_refl eq_refl) as (path & E & Hpath).
    etransitivity; [exact E|].
    rewrite (Hpath [str "a"; str "bc"] eq_refl). reflexivity.
  - exact (proj2 (file_entries_kept_or_skipped
                    [BInt 0] [] (BDict [(str "length", BInt 1)])
                    TorrentFile.init) eq_refl).
Defined.

(** C8, as stated, fails: an entry whose [path] list holds a component that
    is not a string is not of the well-formed kind, yet it is not passed
    over: it is added, with its length. *)
Lemma file_entry_with_bad_path_component_kept :
  let e := BDict [(str "length", BInt 3);
                  (str "path", BList [BInt 1; BString (str "z")])] in
  well_formed_file_entry e = false
  /\ TorrentFile.parseFilesList [e] TorrentFile.init <> TorrentFile.init
  /\ TorrentFile.totalSize (TorrentFile.parseFilesList [e] TorrentFile.init) = 3
  /\ List.length
       (TorrentFile.files (TorrentFile.parseFilesList [e] TorrentFile.init))
     = 1%nat.
Proof.
  repeat split; try reflexivity. discriminate.
Qed.

(** C10: when the info dictionary holds an integer [length], the torrent is
    a single-file one whatever [files] holds: [length] is the total size,
    the one file entry is named by [name], the single-file flag is set, and
    the result does not depend on the [files] entry. *)
Theorem length_takes_precedence_over_files
    (infoDict : Dict) (self : TorrentFile.t) (n pieceLen : Z) (piecesStr : bytes) :
  StdMap.find (str "length") infoDict = Some (BInt n) ->
  StdMap.find (str "piece length") infoDict = Some (BInt pieceLen) ->
  StdMap.find (str "pieces") infoDict = Some (BString piecesStr) ->
  TorrentFile.files self = [] ->
  exists self',
    TorrentFile.parseInfoDict infoDict self = Ok self'
    /\ TorrentFile.singleFile self' = true
    /\ TorrentFile.totalSize self' = n
    /\ TorrentFile.files self' = [FileInfo.make (TorrentFile.name self') n]
    /\ TorrentFile.name self'
       = match StdMap.find (str "name") infoDict with
         | Some (BString s) => s
         | _ => TorrentFile.name self
         end
    /\ forall infoDict' : Dict,
         (forall k, k <> str "files" ->
                    StdMap.find k infoDict' = StdMap.find k infoDict) ->
         TorrentFile.parseInfoDict infoDict' self = Ok self'.
Proof.
  intros Hlen Hpl Hpieces Hfiles.
  eexists. split; [|split; [|split; [|split; [|split]]]].
  - unfold TorrentFile.parseInfoDict. rewrite Hpl, Hpieces, Hlen. reflexivity.
  - reflexivity.
  - reflexivity.
  - destruct (StdMap.find (str "name") infoDict) as [[i|s|l|d]|];
      cbn; rewrite Hfiles; reflexivity.
  - destruct (StdMap.find (str "name") infoDict) as [[i|s|l|d]|]; reflexivity.
  - intros infoDict' Hsame. unfold TorrentFile.parseInfoDict.
    rewrite !Hsame by discriminate.
    rewrite Hpl, Hpieces, Hlen. reflexivity.
Qed.

Lemma length_takes_precedence_over_files_witness :
  exists self',
    TorrentFile.parseInfoDict
      [(str "files", BList [BDict [(str "length", BInt 99);
                                   (str "path", BList [BString (str "y")])]]);
       (str "length", BInt 10);
       (str "name", BString (str "x"));
       (str "piece length", BInt 5);
       (str "pieces", BString (str "AAAAAAAAAAAAAAAAAAAA"))]
      TorrentFile.init
    = Ok self'
    /\ TorrentFile.singleFile self' = true
    /\ TorrentFile.totalSize self' = 10
    /\ TorrentFile.files self' = [FileInfo.make (str "x") 10].
Proof.
  destruct (length_takes_precedence_over_files
              [(str "files", BList [BDict [(str "length", BInt 99);
                                           (str "path", BList [BString (str "y")])]]);
               (str "length", BInt 10);
               (str "name", BString (str "x"));
               (str "piece length", BInt 5);
               (str "pieces", BString (str "AAAAAAAAAAAAAAAAAAAA"))]
              TorrentFile.init 10 5 (str "AAAAAAAAAAAAAAAAAAAA")
              eq_refl eq_refl eq_refl eq_refl)
    as (self' & E & Hsingle & Htotal & Hfiles & Hname & _).
  exists self'. rewrite Hname in Hfiles. auto.
Defined.

(** *** Piece hashes *)

Lemma splitPieces_past_end (fuel : nat) (s : bytes) (i : Z) (acc : list bytes) :
  size s <= i -> TorrentFile.splitPieces fuel s i acc = acc.
Proof.
  intros H. destruct fuel as [|fuel]; [reflexivity|].
  cbn [TorrentFile.splitPieces].
  now replace (i <? size s) with false by (symmetry; apply Z.ltb_ge; lia).
Qed.

(** The chunks are consecutive, cover the string, and have 20 bytes each,
    the last one excepted when the length is not a multiple of 20. *)
Lemma splitPieces_chunks (fuel : nat) :
  forall (s : bytes) (i : Z) (rest : bytes) (acc : list bytes),
    cursor s i rest -> (List.length rest <= fuel)%nat ->
    exists chunks,
      TorrentFile.splitPieces fuel s i acc = acc ++ chunks
      /\ List.concat chunks = rest
      /\ Forall (fun h => (1 <= List.length h <= 20)%nat) chunks
      /\ ((List.length rest mod 20 = 0)%nat ->
          Forall (fun h => List.length h = 20%nat) chunks).
Proof.
  induction fuel as [|fuel IH]; intros s i rest acc Hcur Hfuel.
  - destruct rest; [|simpl in Hfuel; lia].
    exists []. rewrite app_nil_r. repeat split; constructor.
  - destruct rest as [|c r].
    + exists []. rewrite app_nil_r. cbn [TorrentFile.splitPieces].
      rewrite (cursor_end_ltb _ _ Hcur). repeat split; constructor.
    + cbn [TorrentFile.splitPieces]. rewrite (cursor_ltb _ _ _ _ Hcur).
      assert (Hlen : (1 <= List.length (c :: r))%nat) by (simpl; lia).
      remember (c :: r) as rest eqn:Hrest. clear Hrest c r.
      pose proof (cursor_size _ _ _ Hcur) as Hsize.
      destruct (Nat.le_gt_cases (List.length rest) 20) as [Hshort|Hlong].
      * assert (Hsub : substr s i 20 = rest).
        { unfold substr. rewrite (cursor_skipn _ _ _ Hcur).
          apply firstn_all2. unfold size in *. lia. }
        rewrite Hsub, splitPieces_past_end by (unfold size in *; lia).
        exists [rest]. split; [reflexivity|].
        split; [cbn [List.concat]; apply app_nil_r|].
        split; [constructor; [lia|constructor]|].
        intros Hmod. constructor; [|constructor].
        destruct (Nat.eq_dec (List.length rest) 20) as [E|E]; [exact E|].
        rewrite Nat.mod_small in Hmod by lia. lia.
      * pose proof (firstn_skipn 20 rest) as Hsplit.
        assert (Ha : List.length (firstn 20 rest) = 20%nat)
          by (rewrite List.length_firstn; lia).
        pose proof (List.length_skipn 20 rest) as Hrest'.
        remember (firstn 20 rest) as a eqn:Heqa.
        remember (skipn 20 rest) as rest' eqn:Heqrest'.
        clear Heqa Heqrest'.
        rewrite <- Hsplit in Hcur.
        assert (Hsub : substr s i 20 = a).
        { rewrite <- (cursor_substr _ _ _ _ Hcur). f_equal.
          unfold size. lia. }
        rewrite Hsub.
        apply cursor_app in Hcur.
        replace (i + size a) with (i + 20) in Hcur by (unfold size; lia).
        destruct (IH s (i + 20) rest' (acc ++ [a]) Hcur ltac:(lia))
          as (chunks & E & Hcat & Hbounds & Hexact).
        exists (a :: chunks). rewrite <- app_assoc in E.
        split; [exact E|].
        split; [cbn [List.concat]; now rewrite Hcat|].
        split; [constructor; [lia|assumption]|].
        intros Hmod. constructor; [assumption|]. apply Hexact.
        rewrite Hrest'.
        replace (List.length rest) with (List.length rest - 20 + 1 * 20)%nat
          in Hmod by lia.
        now rewrite Nat.Div0.mod_add in Hmod.
Qed.

(** The fuel [parseInfoDict] hands over is enough for the whole string. *)
Lemma splitPieces_whole (piecesStr : bytes) (acc : list bytes) :
  exists chunks,
    TorrentFile.splitPieces (List.length piecesStr) piecesStr 0 acc = acc ++ chunks
    /\ List.concat chunks = piecesStr
    /\ Forall (fun h => (1 <= List.length h <= 20)%nat) chunks
    /\ ((List.length piecesStr mod 20 = 0)%nat ->
        Forall (fun h => List.length h = 20%nat) chunks).
Proof.
  apply splitPieces_chunks; [apply cursor_start|lia].
Qed.

(** C7: the info dictionary's [pieces] string is cut into consecutive
    chunks of 20 bytes with no check that its length is a multiple of 20:
    on a 23-byte string the second piece hash has 3 bytes, not 20. *)
Theorem last_piece_hash_may_be_short :
  exists tf,
    TorrentFile.construct 20
      (str "d4:infod6:lengthi10e4:name1:x12:piece lengthi5e6:pieces23:AAAAAAAAAAAAAAAAAAAABBBee")
    = Ok tf
    /\ TorrentFile.pieces tf = [str "AAAAAAAAAAAAAAAAAAAA"; str "BBB"]
    /\ Exists (fun h => List.length h <> 20%nat) (TorrentFile.pieces tf).
Proof.
  eexists. split; [vm_compute; reflexivity|].
  split; [reflexivity|]. apply Exists_cons_tl, Exists_cons_hd. discriminate.
Qed.

(* ================================================================= *)
(** * Further properties of the decoder *)

(** ** The value model *)

(** X1: a value answers exactly one of the four type queries, and each
    getter returns the held value exactly when its query answers true. *)
Theorem accessor_matches_query (v : BencodeValue) :
  (isInt v = true <-> exists i, getInt v = Some i /\ v = BInt i)
  /\ (isString v = true <-> exists s, getString v = Some s /\ v = BString s)
  /\ (isList v = true <-> exists l, getList v = Some l /\ v = BList l)
  /\ (isDict v = true <-> exists d, getDict v = Some d /\ v = BDict d)
  /\ (isInt v = false <-> getInt v = None)
  /\ (isString v = false <-> getString v = None)
  /\ (isList v = false <-> getList v = None)
  /\ (isDict v = false <-> getDict v = None)
  /\ (if isInt v then 1 else 0) + (if isString v then 1 else 0)
     + (if isList v then 1 else 0) + (if isDict v then 1 else 0) = 1.
Proof.
  destruct v as [i|s|l|d]; cbn;
    repeat split; try discriminate; try reflexivity; eauto;
    intros (x & H & _); discriminate H.
Qed.

(** ** What every decoded value satisfies *)

Lemma value_ok_list (l : list BencodeValue) :
  value_ok (BList l) <-> Forall value_ok l.
Proof.
  cbn [value_ok]. induction l as [|x l IH].
  - split; constructor.
  - rewrite IH. split.
    + intros [Hx Hl]. now constructor.
    + intros H. inversion H. now split.
Qed.

Lemma value_ok_dict (d : list (bytes * BencodeValue)) :
  value_ok (BDict d)
  <-> StdMap.sorted d /\ Forall (fun kv => value_ok (snd kv)) d.
Proof.
  cbn [value_ok].
  assert (E : (fix all (d : list (bytes * BencodeValue)) : Prop :=
                 match d with
                 | [] => True
                 | (_, x) :: r => value_ok x /\ all r
                 end) d
              <-> Forall (fun kv => value_ok (snd kv)) d).
  { induction d as [|[k x] d IH].
    - split; constructor.
    - rewrite IH. split.
      + intros [Hx Hd]. now constructor.
      + intros H. inversion H. now split. }
  now rewrite E.
Qed.

Lemma parseInt_digits_range (rest : bytes) :
  forall r pos,
    - 2 ^ 63 <= r < 2 ^ 63 ->
    - 2 ^ 63 <= fst (parseInt_digits rest r pos) < 2 ^ 63.
Proof.
  induction rest as [|c rest IH]; intros r pos Hr; [exact Hr|].
  simpl. destruct (isdigit c); [|exact Hr].
  apply IH, wrap64_range.
Qed.

Lemma parseInt_digits_pos (rest : bytes) :
  forall r pos,
    pos <= snd (parseInt_digits rest r pos) <= pos + size rest.
Proof.
  induction rest as [|c rest IH]; intros r pos.
  - cbn [parseInt_digits snd]. rewrite size_nil. lia.
  - cbn [parseInt_digits]. rewrite size_cons. pose proof (size_nonneg rest).
    destruct (isdigit c); [|cbn [snd]; lia].
    specialize (IH (wrap64 (r * 10 + (code c - 48))) (pos + 1)). lia.
Qed.

Lemma parseInt_number_result input pos negative i pos' :
  parseInt_number input pos negative = Ok (i, pos') ->
  - 2 ^ 63 <= i < 2 ^ 63 /\ pos < pos' <= size input.
Proof.
  unfold parseInt_number.
  destruct ((size input <=? pos) || negb (isdigit (byte_at input pos)));
    [discriminate|].
  destruct (chr_eqb (byte_at input pos) "0" && (pos + 1 <? size input)
            && negb (chr_eqb (byte_at input (pos + 1)) "e")); [discriminate|].
  pose proof (parseInt_digits_range (skipn (Z.to_nat pos) input) 0 pos
                ltac:(lia)) as Hrange.
  pose proof (parseInt_digits_pos (skipn (Z.to_nat pos) input) 0 pos) as Hpos.
  destruct (parseInt_digits (skipn (Z.to_nat pos) input) 0 pos) as [result p].
  cbn [fst snd] in *.
  destruct (size input <=? p) eqn:Hend; [discriminate|].
  destruct (negb (chr_eqb (byte_at input p) "e")); [discriminate|].
  cbn [orb]. intros [= <- <-]. apply Z.leb_gt in Hend.
  split; [|lia].
  destruct negative; [apply wrap64_range|exact Hrange].
Qed.

Lemma parseInt_result input pos i pos' :
  parseInt input pos = Ok (i, pos') ->
  - 2 ^ 63 <= i < 2 ^ 63 /\ pos < pos' <= size input.
Proof.
  unfold parseInt.
  destruct ((size input <=? pos) || negb (chr_eqb (byte_at input pos) "i"));
    [discriminate|].
  destruct ((pos + 1 <? size input) && chr_eqb (byte_at input (pos + 1)) "-");
    intros H; apply parseInt_number_result in H; lia.
Qed.

Lemma parseString_result input pos s pos' :
  parseString input pos = Ok (s, pos') -> 0 <= pos' <= size input.
Proof.
  unfold parseString.
  destruct (find_char input ":" pos) as [colonPos|]; [|discriminate].
  destruct ((1 <? size (substr input pos (colonPos - pos)))
            && chr_eqb (byte_at (substr input pos (colonPos - pos)) 0) "0");
    [discriminate|].
  destruct (parseString_length (substr input pos (colonPos - pos)) 0)
    as [length|]; [|discriminate].
  destruct (size input <? wrap_size (colonPos + 1 + length)) eqn:E;
    [discriminate|].
  intros [= _ <-]. apply Z.ltb_ge in E.
  unfold wrap_size in *.
  pose proof (Z.mod_pos_bound (colonPos + 1 + length) (2 ^ 64)). lia.
Qed.

Lemma insert_Forall {V : Type} (P : bytes * V -> Prop) (k : bytes) (v : V)
    (m : StdMap.t V) :
  Forall P m -> P (k, v) -> Forall P (fst (StdMap.insert k v m)).
Proof.
  induction m as [|[k0 v0] m IH]; simpl; intros Hm Hkv.
  - now constructor.
  - inversion Hm as [|? ? H0 Hm']; subst.
    destruct (StdMap.compare k k0); simpl.
    + exact Hm.
    + now constructor.
    + specialize (IH Hm' Hkv).
      destruct (StdMap.insert k v m) as [m' b]. simpl in *.
      now constructor.
Qed.

Section ResultFacts.
Variable pv : bytes -> Z -> parsed BencodeValue.
Hypothesis Hpv :
  forall input pos v pos',
    0 <= pos -> pv input pos = Ok (v, pos') ->
    value_ok v /\ 0 <= pos' <= size input.

Lemma parseList_loop_result (fuel : nat) :
  forall input pos acc l pos',
    parseList_loop pv fuel input pos acc = Ok (l, pos') ->
    0 <= pos -> Forall value_ok acc ->
    Forall value_ok l /\ 0 <= pos'.
Proof.
  induction fuel as [|fuel IH]; intros input pos acc l pos' H Hpos Hacc;
    [discriminate|].
  cbn [parseList_loop] in H.
  destruct ((pos <? size input) && negb (chr_eqb (byte_at input pos) "e")).
  - destruct (pv input pos) as [[v p]| e |] eqn:E; try discriminate.
    cbn [bind] in H. destruct (Hpv _ _ _ _ Hpos E) as [Hv Hp].
    apply (IH _ _ _ _ _ H); [lia|].
    apply Forall_app. split; [assumption|]. now constructor.
  - injection H as <- <-. now split.
Qed.

Lemma parseDict_loop_result (fuel : nat) :
  forall input pos acc d pos',
    parseDict_loop pv fuel input pos acc = Ok (d, pos') ->
    0 <= pos -> value_ok (BDict acc) ->
    value_ok (BDict d) /\ 0 <= pos'.
Proof.
  induction fuel as [|fuel IH]; intros input pos acc d pos' H Hpos Hacc;
    [discriminate|].
  cbn [parseDict_loop] in H.
  destruct ((pos <? size input) && negb (chr_eqb (byte_at input pos) "e")).
  - destruct (negb (isdigit (byte_at input pos))); [discriminate|].
    destruct (parseString input pos) as [[key p1]| e |] eqn:Ekey;
      try discriminate.
    cbn [bind] in H. apply parseString_result in Ekey.
    destruct (pv input p1) as [[v p2]| e |] eqn:Eval; try discriminate.
    cbn [bind] in H.
    destruct (Hpv _ _ _ _ (proj1 Ekey) Eval) as [Hv Hp].
    pose proof (insert_sorted key v acc) as Hsorted.
    pose proof (insert_Forall (fun kv => value_ok (snd kv)) key v acc) as Hall.
    destruct (StdMap.insert key v acc) as [acc' fresh]. cbn [fst] in *.
    destruct (negb fresh); [discriminate|].
    apply value_ok_dict in Hacc. destruct Hacc as [Hs Ha].
    apply (IH _ _ _ _ _ H); [lia|].
    apply value_ok_dict. split; auto.
  - injection H as <- <-. now split.
Qed.
End ResultFacts.

Lemma parseValue_result (fuel : nat) :
  forall input pos v pos',
    0 <= pos -> parseValue fuel input pos = Ok (v, pos') ->
    value_ok v /\ 0 <= pos' <= size input.
Proof.
  induction fuel as [|fuel IH]; intros input pos v pos' Hpos H; [discriminate|].
  cbn [parseValue] in H.
  destruct (size input <=? pos); [discriminate|].
  destruct (isdigit (byte_at input pos)).
  { destruct (parseString input pos) as [[s p]| e |] eqn:E; try discriminate.
    injection H as <- <-. apply parseString_result in E. now split. }
  destruct (chr_eqb (byte_at input pos) "i").
  { destruct (parseInt input pos) as [[i p]| e |] eqn:E; try discriminate.
    injection H as <- <-. apply parseInt_result in E.
    split; [exact (proj1 E)|lia]. }
  destruct (chr_eqb (byte_at input pos) "l").
  { unfold parseList in H.
    destruct ((size input <=? pos) || negb (chr_eqb (byte_at input pos) "l"));
      [discriminate|].
    destruct (parseList_loop (parseValue fuel) fuel input (pos + 1) [])
      as [[l p]| e |] eqn:E; try discriminate.
    cbn [bind] in H.
    destruct (size input <=? p) eqn:Hend; [discriminate|].
    destruct (negb (chr_eqb (byte_at input p) "e")); [discriminate|].
    cbn [orb] in H. injection H as <- <-. apply Z.leb_gt in Hend.
    destruct (parseList_loop_result _ IH _ _ _ _ _ _ E ltac:(lia)
                (Forall_nil _)) as [Hl Hp].
    split; [now apply value_ok_list|lia]. }
  destruct (chr_eqb (byte_at input pos) "d"); [|discriminate].
  unfold parseDict in H.
  destruct ((size input <=? pos) || negb (chr_eqb (byte_at input pos) "d"));
    [discriminate|].
  destruct (parseDict_loop (parseValue fuel) fuel input (pos + 1) [])
    as [[d p]| e |] eqn:E; try discriminate.
  cbn [bind] in H.
  destruct (size input <=? p) eqn:Hend; [discriminate|].
  destruct (negb (chr_eqb (byte_at input p) "e")); [discriminate|].
  cbn [orb] in H. injection H as <- <-. apply Z.leb_gt in Hend.
  assert (Hempty : value_ok (BDict [])).
  { apply value_ok_dict. split; constructor. }
  destruct (parseDict_loop_result _ IH _ _ _ _ _ _ E ltac:(lia) Hempty)
    as [Hd Hp].
  split; [exact Hd|lia].
Qed.

(** X2: whatever the buffer holds, a value that [parseValue] returns comes
    with a cursor inside the buffer or at its end. *)
Theorem cursor_stays_in_buffer
    (fuel : nat) (input : bytes) (pos : Z) (v : BencodeValue) (pos' : Z) :
  0 <= pos ->
  parseValue fuel input pos = Ok (v, pos') ->
  0 <= pos' <= size input.
Proof. intros Hpos H. exact (proj2 (parseValue_result _ _ _ _ _ Hpos H)). Qed.

Lemma cursor_stays_in_buffer_witness :
  0 <= 20 <= size (str "l18446744073709551614:abcde").
Proof.
  apply (cursor_stays_in_buffer 3 (str "l18446744073709551614:abcde") 1
           (BString (str "abcde")) 20).
  - lia.
  - reflexivity.
Defined.

(** X3: whatever the buffer holds, in a value that [parse] returns every
    integer lies in the signed 64-bit range and every dictionary, at every
    depth, is in strictly ascending key order, so without repeated keys. *)
Theorem decoded_value_invariant
    (fuel : nat) (input : bytes) (v : BencodeValue) :
  parse fuel input = Ok v -> value_ok v.
Proof.
  unfold parse. intros H.
  destruct (parseValue fuel input 0) as [[v' p]| e |] eqn:E; try discriminate.
  injection H as <-.
  exact (proj1 (parseValue_result _ _ _ _ _ (Z.le_refl 0) E)).
Qed.

Lemma decoded_value_invariant_witness :
  value_ok (BList [BDict [(str "a", BInt (-9223372036854775808));
                          (str "b", BDict [])]]).
Proof.
  apply (decoded_value_invariant 9
           (str "ld1:bde1:ai9223372036854775808eee")).
  reflexivity.
Defined.

(** ** Well-formed encodings: the cursor and dictionary lookup *)

(** X4: a well-formed encoding standing anywhere in a buffer is decoded to
    its value, and the cursor is left on the byte just behind it. *)
Theorem value_consumed_exactly
    (t : Term) (pre post : bytes) (fuel : nat) :
  unique_keys t = true ->
  size (pre ++ encoding t ++ post) < 2 ^ 64 ->
  (List.length (encoding t) < fuel)%nat ->
  parseValue fuel (pre ++ encoding t ++ post) (size pre)
  = Ok (denote t, size pre + size (encoding t)).
Proof.
  intros Hwf Hbound Hfuel.
  apply (parseValue_ok t Hwf fuel _ _ post); [|assumption|assumption].
  now exists pre.
Qed.

Lemma value_consumed_exactly_witness :
  parseValue 12 (str "xxli1e2:abeyy") 2
  = Ok (BList [BInt 1; BString (str "ab")], 11).
Proof.
  apply (value_consumed_exactly
           (TList [TInt false 1; TString (str "ab")]) (str "xx") (str "yy") 12).
  - reflexivity.
  - reflexivity.
  - vm_compute. lia.
Defined.

Lemma find_insert_same {V : Type} (k : bytes) (v : V) (m : StdMap.t V) :
  snd (StdMap.insert k v m) = true ->
  StdMap.find k (fst (StdMap.insert k v m)) = Some v.
Proof.
  induction m as [|[k0 v0] m IH]; simpl; intros H.
  - now rewrite compare_refl.
  - destruct (StdMap.compare k k0) eqn:E; simpl in *.
    + discriminate.
    + now rewrite compare_refl.
    + destruct (StdMap.insert k v m) as [m' b]. simpl in *.
      rewrite E. auto.
Qed.

Lemma find_insert_other {V : Type} (k k' : bytes) (v : V) (m : StdMap.t V) :
  k' <> k ->
  StdMap.find k' (fst (StdMap.insert k v m)) = StdMap.find k' m.
Proof.
  intros Hne. induction m as [|[k0 v0] m IH]; simpl.
  - destruct (StdMap.compare k' k) eqn:E; try reflexivity.
    apply compare_eq in E. contradiction.
  - destruct (StdMap.compare k k0) eqn:E; simpl.
    + reflexivity.
    + destruct (StdMap.compare k' k) eqn:E'; try reflexivity.
      apply compare_eq in E'. contradiction.
    + destruct (StdMap.insert k v m) as [m' b]. simpl in *.
      now rewrite IH.
Qed.

Lemma find_not_in {V : Type} (k : bytes) (m : StdMap.t V) :
  ~ In k (StdMap.keys m) -> StdMap.find k m = None.
Proof.
  induction m as [|[k0 v0] m IH]; simpl; intros H; [reflexivity|].
  destruct (StdMap.compare k k0) eqn:E.
  - apply compare_eq in E. intuition congruence.
  - apply IH. tauto.
  - apply IH. tauto.
Qed.

Lemma insert_all_find (kvs : list (bytes * BencodeValue)) :
  forall (acc : Dict) (k : bytes),
    NoDup (map fst kvs) ->
    (forall k', In k' (map fst kvs) -> ~ In k' (StdMap.keys acc)) ->
    (forall v, In (k, v) kvs -> StdMap.find k (insert_all kvs acc) = Some v)
    /\ (~ In k (map fst kvs) ->
        StdMap.find k (insert_all kvs acc) = StdMap.find k acc).
Proof.
  induction kvs as [|[k0 v0] kvs IH]; intros acc k Hnodup Hfresh.
  - split; [intros v []|reflexivity].
  - inversion Hnodup as [|? ? Hk0 Hnodup']; subst. cbn [map fst] in *.
    assert (Hins : snd (StdMap.insert k0 v0 acc) = true)
      by (apply insert_fresh, Hfresh; now left).
    change (insert_all ((k0, v0) :: kvs) acc)
      with (insert_all kvs (fst (StdMap.insert k0 v0 acc))).
    assert (Hfresh' : forall k', In k' (map fst kvs) ->
              ~ In k' (StdMap.keys (fst (StdMap.insert k0 v0 acc)))).
    { intros k' Hk' Hin. apply insert_keys in Hin.
      destruct Hin as [[_ ->]|Hin]; [contradiction|].
      apply (Hfresh k'); [now right|assumption]. }
    destruct (IH (fst (StdMap.insert k0 v0 acc)) k Hnodup' Hfresh')
      as [Hin Hout].
    split.
    + intros v [[= -> ->]|Hv]; [|now apply Hin].
      rewrite Hout by assumption. now apply find_insert_same.
    + intros Hk. rewrite Hout by (intros Hin'; apply Hk; now right).
      apply find_insert_other. intros ->. apply Hk. now left.
Qed.

(** X5: after a well-formed dictionary encoding is decoded, looking a key
    up finds the decoded value of the entry that carries it in the source,
    and finds nothing for a key the source does not hold. *)
Theorem decoded_dictionary_lookup
    (entries : list (bytes * Term)) (fuel : nat) :
  unique_keys (TDict entries) = true ->
  size (encoding (TDict entries)) < 2 ^ 64 ->
  (List.length (encoding (TDict entries)) < fuel)%nat ->
  exists d : Dict,
    parse fuel (encoding (TDict entries)) = Ok (BDict d)
    /\ (forall k t, In (k, t) entries -> StdMap.find k d = Some (denote t))
    /\ (forall k, ~ In k (map fst entries) -> StdMap.find k d = None).
Proof.
  intros Hwf Hbound Hfuel.
  exists (insert_all (map denote_entry entries) []).
  split; [|split].
  - unfold parse.
    rewrite (parseValue_ok _ Hwf fuel _ 0 [] (cursor_whole _) Hbound Hfuel).
    reflexivity.
  - intros k t Hin.
    cbn [unique_keys] in Hwf. apply andb_true_iff in Hwf.
    destruct Hwf as [Hdistinct _]. apply distinct_NoDup in Hdistinct.
    apply (insert_all_find (map denote_entry entries) [] k).
    + now rewrite denote_entry_keys.
    + intros ? _ [].
    + change (k, denote t) with (denote_entry (k, t)). now apply in_map.
  - intros k Hk.
    cbn [unique_keys] in Hwf. apply andb_true_iff in Hwf.
    destruct Hwf as [Hdistinct _]. apply distinct_NoDup in Hdistinct.
    rewrite (proj2 (insert_all_find (map denote_entry entries) [] k
                      ltac:(now rewrite denote_entry_keys)
                      ltac:(intros ? _ []))).
    + reflexivity.
    + now rewrite denote_entry_keys.
Qed.

Lemma decoded_dictionary_lookup_witness :
  exists d : Dict,
    parse 20 (str "d1:bi1e1:al2:xyee") = Ok (BDict d)
    /\ StdMap.find (str "a") d = Some (BList [BString (str "xy")])
    /\ StdMap.find (str "c") d = None.
Proof.
  destruct (decoded_dictionary_lookup
              [(str "b", TInt false 1); (str "a", TList [TString (str "xy")])]
              20 eq_refl eq_refl ltac:(vm_compute; lia))
    as (d & Hparse & Hin & Hout).
  exists d. split; [exact Hparse|]. split.
  - apply (Hin (str "a") (TList [TString (str "xy")])). right. now left.
  - apply Hout. intros [H|[H|[]]]; discriminate H.
Defined.

(** ** Malformed byte strings *)

Lemma parse_string_lead (fuel : nat) (c : ascii) (rest : bytes) :
  isdigit c = true ->
  parse (S fuel) (c :: rest)
  = '(v, _) <- ('(s, pos) <- parseString (c :: rest) 0 ;; Ok (BString s, pos)) ;;
    Ok v.
Proof.
  intros Hc. unfold parse. cbn [parseValue].
  pose proof (cursor_start (c :: rest)) as H.
  now rewrite (cursor_leb _ _ _ _ H), (cursor_byte _ _ _ _ H), Hc.
Qed.

Lemma not_in_colon (ds : bytes) :
  ~ In ":"%char ds -> Forall (fun c => chr_eqb c ":" = false) ds.
Proof.
  intros H. apply Forall_forall. intros c Hc.
  destruct (chr_eqb c ":") eqn:E; [|reflexivity].
  apply chr_eqb_eq in E. subst c. contradiction.
Qed.

Lemma find_from_none (x : ascii) (rest : bytes) :
  forall pos, Forall (fun c => chr_eqb c x = false) rest ->
              find_from x rest pos = None.
Proof.
  induction rest as [|c rest IH]; intros pos H; [reflexivity|].
  inversion H as [|? ? Hc Hrest]; subst. simpl. rewrite Hc. now apply IH.
Qed.

Lemma parseString_at_start (ds rest : bytes) :
  ~ In ":"%char ds ->
  parseString (ds ++ ":"%char :: rest) 0
  = if (1 <? size ds) && chr_eqb (byte_at ds 0) "0"
    then Throw StringLeadingZeros
    else
      match parseString_length ds 0 with
      | None => Throw StringNonDigit
      | Some length =>
          if size (ds ++ ":"%char :: rest) <? wrap_size (size ds + 1 + length)
          then Throw StringInsufficient
          else Ok (substr (ds ++ ":"%char :: rest) (size ds + 1) length,
                   wrap_size (size ds + 1 + length))
      end.
Proof.
  intros Hds. unfold parseString, find_char.
  pose proof (cursor_start (ds ++ ":"%char :: rest)) as H.
  rewrite (cursor_skipn _ _ _ H).
  rewrite find_from_app by now apply not_in_colon.
  rewrite Z.add_0_l, Z.sub_0_r.
  now rewrite (cursor_substr _ _ _ _ H).
Qed.

Lemma parseString_length_none (ds : bytes) :
  forall r, Exists (fun c => isdigit c = false) ds ->
            parseString_length ds r = None.
Proof.
  induction ds as [|c ds IH]; intros r H; inversion H as [? ? Hc|? ? Hds]; subst.
  - simpl. now rewrite Hc.
  - simpl. destruct (isdigit c); [now apply IH|reflexivity].
Qed.

(** X6: an input that begins with a digit and holds no [':'] fails with
    "missing colon". *)
Theorem string_without_colon_rejected
    (c : ascii) (rest : bytes) (fuel : nat) :
  isdigit c = true ->
  ~ In ":"%char rest ->
  parse (S fuel) (c :: rest) = Throw StringMissingColon.
Proof.
  intros Hc Hrest. rewrite parse_string_lead by assumption.
  unfold parseString, find_char. cbn [Z.to_nat skipn].
  rewrite find_from_none; [reflexivity|].
  apply not_in_colon. intros [->|H]; [discriminate Hc|contradiction].
Qed.

Lemma string_without_colon_rejected_witness :
  parse 1 (str "4spam") = Throw StringMissingColon.
Proof.
  apply (string_without_colon_rejected "4"%char (str "spam") 0).
  - reflexivity.
  - intros [H|[H|[H|[H|[]]]]]; discriminate H.
Defined.

(** X7: a length prefix of more than one character that begins with ['0']
    fails with "leading zeros", whatever the characters after the ['0']. *)
Theorem string_length_leading_zero_rejected
    (ds rest : bytes) (fuel : nat) :
  ds <> [] ->
  ~ In ":"%char ds ->
  parse (S fuel) ("0"%char :: ds ++ ":"%char :: rest) = Throw StringLeadingZeros.
Proof.
  intros Hne Hds. rewrite parse_string_lead by reflexivity.
  change ("0"%char :: ds ++ ":"%char :: rest)
    with (("0"%char :: ds) ++ ":"%char :: rest).
  rewrite (parseString_at_start ("0"%char :: ds) rest)
    by (intros [H|H]; [discriminate H|contradiction]).
  change (byte_at ("0"%char :: ds) 0) with "0"%char.
  replace (1 <? size ("0"%char :: ds)) with true; [reflexivity|].
  symmetry. apply Z.ltb_lt. rewrite size_cons.
  destruct ds; [contradiction|]. rewrite size_cons.
  pose proof (size_nonneg ds). lia.
Qed.

Lemma string_length_leading_zero_rejected_witness :
  parse 1 (str "01:a") = Throw StringLeadingZeros.
Proof.
  apply (string_length_leading_zero_rejected (str "1") (str "a") 0).
  - discriminate.
  - intros [H|[]]. discriminate H.
Defined.

(** X8: a length prefix that begins with a digit other than ['0'] and
    holds a character that is not a digit fails with "non-digit
    character". *)
Theorem string_length_non_digit_rejected
    (c : ascii) (ds rest : bytes) (fuel : nat) :
  isdigit c = true -> c <> "0"%char ->
  ~ In ":"%char ds ->
  Exists (fun x => isdigit x = false) ds ->
  parse (S fuel) (c :: ds ++ ":"%char :: rest) = Throw StringNonDigit.
Proof.
  intros Hc Hzero Hds Hbad. rewrite parse_string_lead by assumption.
  change (c :: ds ++ ":"%char :: rest) with ((c :: ds) ++ ":"%char :: rest).
  rewrite (parseString_at_start (c :: ds) rest)
    by (intros [->|H]; [discriminate Hc|contradiction]).
  change (byte_at (c :: ds) 0) with c.
  replace (chr_eqb c "0") with false
    by (symmetry; destruct (chr_eqb c "0") eqn:E;
        [apply chr_eqb_eq in E; contradiction|reflexivity]).
  rewrite andb_false_r.
  rewrite parseString_length_none; [reflexivity|].
  now apply Exists_cons_tl.
Qed.

Lemma string_length_non_digit_rejected_witness :
  parse 1 (str "1x:a") = Throw StringNonDigit.
Proof.
  apply (string_length_non_digit_rejected "1"%char (str "x") (str "a") 0).
  - reflexivity.
  - discriminate.
  - intros [H|[]]. discriminate H.
  - apply Exists_cons_hd. reflexivity.
Defined.

(** X9: a byte string whose prefix announces more bytes than the buffer
    holds behind the colon fails with "insufficient characters". *)
Theorem truncated_string_rejected (L : N) (B : bytes) (fuel : nat) :
  size B < Z.of_N L ->
  size (decimal L) + 1 + Z.of_N L < 2 ^ 64 ->
  parse (S fuel) (decimal L ++ ":"%char :: B) = Throw StringInsufficient.
Proof.
  intros Hshort Hbound.
  pose proof (decimal_digits L) as Hds.
  destruct (decimal_head L) as (c & ds & Hd & Hz).
  pose proof (size_nonneg (decimal L)) as Hsz.
  pose proof (size_nonneg B) as HB.
  assert (Hcolon : ~ In ":"%char (decimal L)).
  { intros Hin. rewrite Forall_forall in Hds. now specialize (Hds _ Hin). }
  assert (Hlead : isdigit c = true)
    by (rewrite Hd in Hds; now inversion Hds).
  assert (E : parse (S fuel) (decimal L ++ ":"%char :: B)
              = '(v, _) <- ('(s, pos) <-
                   parseString (decimal L ++ ":"%char :: B) 0 ;;
                   Ok (BString s, pos)) ;; Ok v).
  { rewrite Hd. simpl app. now apply parse_string_lead. }
  rewrite E, (parseString_at_start (decimal L) B Hcolon).
  assert (Hlz : (1 <? size (decimal L)) && chr_eqb (byte_at (decimal L) 0) "0"
                = false).
  { rewrite Hd. change (byte_at (c :: ds) 0) with c.
    destruct (chr_eqb c "0") eqn:E0; [|apply andb_false_r].
    rewrite (Hz eq_refl) in Hd. rewrite decimal_zero in Hd.
    injection Hd as <- <-. reflexivity. }
  rewrite Hlz, parseString_length_spec by (auto; reflexivity).
  rewrite decimal_value, (wrap_size_small (Z.of_N L)) by lia.
  rewrite wrap_size_small by lia.
  replace (size (decimal L ++ ":"%char :: B) <? size (decimal L) + 1 + Z.of_N L)
    with true; [reflexivity|].
  symmetry. apply Z.ltb_lt. rewrite size_app, size_cons. lia.
Qed.

Lemma truncated_string_rejected_witness :
  parse 1 (str "5:ab") = Throw StringInsufficient.
Proof.
  apply (truncated_string_rejected 5 (str "ab") 0); reflexivity.
Defined.

(** ** Integers that do not end in ['e'] *)

Lemma parseInt_number_bad_end input pos (m : N) (c : ascii) (rest : bytes)
    (negative : bool) :
  cursor input pos (decimal m ++ c :: rest) ->
  isdigit c = false -> chr_eqb c "e" = false ->
  parseInt_number input pos negative
  = Throw (if (m =? 0)%N then IntegerLeadingZeros else IntegerMissingE).
Proof.
  intros H Hc He. unfold parseInt_number.
  pose proof (decimal_digits m) as Hds.
  destruct (decimal_head m) as (d & ds & Hd & Hz).
  pose proof H as H'. rewrite Hd in H', Hds. simpl app in H'.
  inversion Hds as [|? ? Hdigit _]; subst.
  rewrite (cursor_leb _ _ _ _ H'), (cursor_byte _ _ _ _ H'), Hdigit.
  cbn [orb negb].
  destruct (N.eqb_spec m 0) as [->|Hm].
  - rewrite decimal_zero in Hd. injection Hd as <- <-.
    apply cursor_next in H'. simpl app in H'.
    now rewrite chr_eqb_refl, (cursor_ltb _ _ _ _ H'),
      (cursor_byte _ _ _ _ H'), He.
  - destruct (chr_eqb d "0") eqn:E; [now specialize (Hz eq_refl)|].
    cbn [andb].
    rewrite (cursor_skipn _ _ _ H).
    rewrite parseInt_digits_spec by (auto using decimal_digits; reflexivity).
    apply cursor_app in H.
    now rewrite (cursor_leb _ _ _ _ H), (cursor_byte _ _ _ _ H), He.
Qed.

(** X10: an integer literal whose digits are followed by a byte that is
    neither a digit nor ['e'] fails: with "missing 'e'", and with "leading
    zeros" when the digits are the single ['0']. *)
Theorem integer_without_terminator_rejected
    (negative : bool) (m : N) (c : ascii) (rest : bytes) (fuel : nat) :
  isdigit c = false -> c <> "e"%char ->
  parse (S fuel)
        ("i"%char :: (if negative then ["-"%char] else [])
                  ++ decimal m ++ c :: rest)
  = Throw (if (m =? 0)%N then IntegerLeadingZeros else IntegerMissingE).
Proof.
  intros Hc He. rewrite parse_int.
  assert (He' : chr_eqb c "e" = false).
  { destruct (chr_eqb c "e") eqn:E; [|reflexivity].
    apply chr_eqb_eq in E. contradiction. }
  destruct negative; simpl app.
  - destruct (parseInt_signed _ 0 (decimal m ++ c :: rest) (cursor_start _))
      as [E H].
    now rewrite E, (parseInt_number_bad_end _ _ m c rest true H Hc He').
  - destruct (parseInt_unsigned_start _ 0 (decimal m ++ c :: rest)
                (cursor_start _)) as [E H].
    + destruct (decimal_head m) as (d & ds & Hd & _).
      pose proof (decimal_digits m) as Hds. rewrite Hd in *. simpl app.
      inversion Hds; subst. now apply isdigit_not.
    + now rewrite E, (parseInt_number_bad_end _ _ m c rest false H Hc He').
Qed.

Lemma integer_without_terminator_rejected_witness :
  parse 1 (str "i-12x") = Throw IntegerMissingE
  /\ parse 1 (str "i0:e") = Throw IntegerLeadingZeros.
Proof.
  split.
  - apply (integer_without_terminator_rejected true 12 "x"%char [] 0).
    + reflexivity.
    + discriminate.
  - apply (integer_without_terminator_rejected false 0 ":"%char (str "e") 0).
    + reflexivity.
    + discriminate.
Defined.

(** ** Lists and dictionaries that are cut short or hold a bad byte *)

Lemma parse_list_loop (fuel : nat) (body : bytes) :
  parse (S fuel) ("l"%char :: body)
  = '(v, _) <-
      ('(l, pos) <-
         ('(result, pos) <-
            parseList_loop (parseValue fuel) fuel ("l"%char :: body) 1 [] ;;
          if (size ("l"%char :: body) <=? pos)
             || negb (chr_eqb (byte_at ("l"%char :: body) pos) "e")
          then Throw ListMissingE
          else Ok (result, pos + 1)) ;;
       Ok (BList l, pos)) ;;
    Ok v.
Proof.
  unfold parse. cbn [parseValue].
  pose proof (cursor_start ("l"%char :: body)) as H.
  rewrite (cursor_leb _ _ _ _ H), (cursor_byte _ _ _ _ H).
  change (isdigit "l") with false.
  change (chr_eqb "l" "i") with false. rewrite chr_eqb_refl. cbv beta iota.
  unfold parseList.
  rewrite (cursor_leb _ _ _ _ H), (cursor_byte _ _ _ _ H), chr_eqb_refl.
  reflexivity.
Qed.

Lemma items_decode (fuel : nat) (input : bytes) (items : list Term) :
  size input < 2 ^ 64 ->
  forallb unique_keys items = true ->
  (List.length (List.concat (map encoding items)) < fuel)%nat ->
  Forall (decodes (parseValue fuel) input) items.
Proof.
  intros Hbound Hwf Hfuel.
  rewrite forallb_forall in Hwf. apply Forall_forall.
  intros t Ht pos post Hcur.
  pose proof (concat_length_In encoding items t Ht) as Hle.
  apply (parseValue_ok t (Hwf t Ht) _ _ _ post Hcur Hbound). lia.
Qed.

Lemma items_length (items : list Term) :
  (List.length items <= List.length (List.concat (map encoding items)))%nat.
Proof.
  apply concat_length_items. intros t _. apply encoding_length_pos.
Qed.

Lemma not_e (c : ascii) : c <> "e"%char -> chr_eqb c "e" = false.
Proof.
  intros H. destruct (chr_eqb c "e") eqn:E; [|reflexivity].
  apply chr_eqb_eq in E. contradiction.
Qed.

(** X11: a list of well-formed values fails to decode when the input ends
    before the closing ['e'] ("missing 'e'"), and when, where the next
    value or the ['e'] should stand, there is a byte that begins no value
    ("Invalid value type"). *)
Theorem broken_list_rejected (items : list Term) (tail : bytes) (fuel : nat) :
  let input := "l"%char :: List.concat (map encoding items) ++ tail in
  forallb unique_keys items = true ->
  size input < 2 ^ 64 ->
  (List.length input < fuel)%nat ->
  (tail = [] -> parse fuel input = Throw ListMissingE)
  /\ (forall c rest,
        tail = c :: rest -> valid_lead c = false -> c <> "e"%char ->
        parse fuel input = Throw InvalidValueType).
Proof.
  intros input Hwf Hbound Hfuel.
  destruct fuel as [|fuel]; [lia|].
  pose proof (items_length items) as Hlen.
  assert (Hsize : List.length input
                  = S (List.length (List.concat (map encoding items))
                       + List.length tail)).
  { unfold input. simpl. now rewrite List.length_app. }
  pose proof (items_decode fuel input items Hbound Hwf ltac:(lia)) as Hdec.
  pose proof (cursor_next _ _ _ _ (cursor_start input)) as Hcur.
  change (0 + 1) with 1 in Hcur.
  split.
  - intros Htail. unfold input at 1. rewrite parse_list_loop. fold input.
    remember (parseValue fuel) as pv eqn:Hpv. subst tail.
    replace fuel
      with (List.length items + S (fuel - List.length items - 1))%nat by lia.
    rewrite (parseList_loop_run pv input items _ _ _ _ Hdec Hcur).
    apply cursor_app in Hcur. cbn [parseList_loop].
    rewrite (cursor_end_ltb _ _ Hcur). cbn [andb bind]. cbv beta iota.
    now rewrite (cursor_end_leb _ _ Hcur).
  - intros c rest Htail Hc He.
    unfold input at 1. rewrite parse_list_loop. fold input.
    remember (parseValue fuel) as pv eqn:Hpv. subst tail.
    assert (Hfuel' : (List.length items + 2 <= fuel)%nat).
    { rewrite Hsize in Hfuel. simpl List.length in Hfuel. lia. }
    replace fuel
      with (List.length items + S (S (fuel - List.length items - 2)))%nat
      in * by lia.
    rewrite (parseList_loop_run pv input items _ _ _ _ Hdec Hcur).
    apply cursor_app in Hcur. cbn [parseList_loop].
    rewrite (cursor_ltb _ _ _ _ Hcur), (cursor_byte _ _ _ _ Hcur).
    rewrite (not_e c He). cbn [andb negb].
    assert (Hthrow : pv input (1 + size (List.concat (map encoding items)))
                     = Throw InvalidValueType).
    { rewrite Hpv.
      match goal with
      | |- parseValue ?f _ _ = _ =>
          destruct f as [|f'] eqn:Ef; [lia|]
      end.
      cbn [parseValue].
      rewrite (cursor_leb _ _ _ _ Hcur), (cursor_byte _ _ _ _ Hcur).
      unfold valid_lead in Hc.
      destruct (isdigit c); [discriminate|].
      destruct (chr_eqb c "i"); [discriminate|].
      destruct (chr_eqb c "l"); [discriminate|].
      destruct (chr_eqb c "d"); [discriminate|]. reflexivity. }
    rewrite Hthrow. reflexivity.
Qed.

Lemma broken_list_rejected_witness :
  parse 20 (str "li1e4:spam") = Throw ListMissingE
  /\ parse 20 (str "li1exe") = Throw InvalidValueType.
Proof.
  split.
  - apply (broken_list_rejected
             [TInt false 1; TString (str "spam")] [] 20);
      try reflexivity.
    vm_compute. lia.
  - apply (proj2 (broken_list_rejected [TInt false 1] (str "xe") 20
                    eq_refl eq_refl ltac:(vm_compute; lia))
             "x"%char (str "e") eq_refl eq_refl).
    discriminate.
Defined.

Lemma parseValue_bad_lead (fuel : nat) input pos (tail : bytes) :
  cursor input pos tail ->
  match tail with [] => True | c :: _ => valid_lead c = false end ->
  parseValue (S fuel) input pos
  = Throw (match tail with
           | [] => UnexpectedEndOfInput
           | _ :: _ => InvalidValueType
           end).
Proof.
  intros H Hc. cbn [parseValue]. destruct tail as [|c rest].
  - now rewrite (cursor_end_leb _ _ H).
  - rewrite (cursor_leb _ _ _ _ H), (cursor_byte _ _ _ _ H).
    unfold valid_lead in Hc.
    destruct (isdigit c); [discriminate|].
    destruct (chr_eqb c "i"); [discriminate|].
    destruct (chr_eqb c "l"); [discriminate|].
    destruct (chr_eqb c "d"); [discriminate|]. reflexivity.
Qed.

(** X12: a dictionary of well-formed entries with different keys fails to
    decode when the input ends before the closing ['e'] ("missing 'e'"),
    and when a key is followed by the end of the input ("Unexpected end of
    input") or by a byte that begins no value, the closing ['e'] included
    ("Invalid value type"). *)
Theorem broken_dictionary_rejected
    (entries : list (bytes * Term)) (tail : bytes) (fuel : nat) :
  let input := "d"%char :: List.concat (map encode_entry entries) ++ tail in
  unique_keys (TDict entries) = true ->
  size input < 2 ^ 64 ->
  (List.length input < fuel)%nat ->
  (tail = [] -> parse fuel input = Throw DictMissingE)
  /\ (forall k, tail = encode_string k ->
                parse fuel input = Throw UnexpectedEndOfInput)
  /\ (forall k c rest,
        tail = encode_string k ++ c :: rest -> valid_lead c = false ->
        parse fuel input = Throw InvalidValueType).
Proof.
  intros input Hwf Hbound Hfuel.
  destruct fuel as [|fuel]; [lia|].
  cbn [unique_keys] in Hwf. apply andb_true_iff in Hwf.
  destruct Hwf as [Hdistinct Hwf]. apply distinct_NoDup in Hdistinct.
  pose proof (entries_length entries) as Hlen.
  assert (Hsize : List.length input
                  = S (List.length (List.concat (map encode_entry entries))
                       + List.length tail)).
  { unfold input. simpl. now rewrite List.length_app. }
  pose proof (children_decode fuel input entries Hbound Hwf ltac:(lia)) as Hdec.
  pose proof (cursor_next _ _ _ _ (cursor_start input)) as Hcur.
  change (0 + 1) with 1 in Hcur.
  assert (Hkey : forall k tail',
            tail = encode_string k ++ tail' ->
            match tail' with [] => True | c :: _ => valid_lead c = false end ->
            parse (S fuel) input
            = Throw (match tail' with
                     | [] => UnexpectedEndOfInput
                     | _ :: _ => InvalidValueType
                     end)).
  { intros k tail' Htail Hbad.
    unfold input at 1. rewrite parse_dict_loop. fold input.
    remember (parseValue fuel) as pv eqn:Hpv. subst tail.
    destruct (encode_string_head k) as (c & r & Hc & Hdigit).
    assert (Hfuel' : (List.length entries + 2 <= fuel)%nat).
    { rewrite Hsize, List.length_app, Hc in Hfuel.
      simpl List.length in Hfuel. lia. }
    replace fuel
      with (List.length entries + S (S (fuel - List.length entries - 2)))%nat
      in * by lia.
    rewrite (parseDict_loop_run pv input Hbound entries _ _ _ _
               Hdec Hcur Hdistinct) by (intros ? _ []).
    apply cursor_app in Hcur.
    cbn [parseDict_loop].
    pose proof Hcur as Hcur'. rewrite Hc in Hcur'. simpl app in Hcur'.
    rewrite (cursor_ltb _ _ _ _ Hcur'), (cursor_byte _ _ _ _ Hcur').
    rewrite (isdigit_not c "e" Hdigit eq_refl), Hdigit. cbn [andb negb].
    rewrite (parseString_ok _ _ _ _ Hcur Hbound). cbn [bind]. cbv beta iota.
    apply cursor_app in Hcur.
    rewrite Hpv.
    match goal with
    | |- context [parseValue ?f input ?p] =>
        destruct f as [|f'] eqn:Ef; [lia|];
        rewrite (parseValue_bad_lead f' input p tail' Hcur Hbad)
    end.
    reflexivity. }
  split; [|split].
  - intros Htail. unfold input at 1. rewrite parse_dict_loop. fold input.
    remember (parseValue fuel) as pv eqn:Hpv. subst tail.
    replace fuel
      with (List.length entries + S (fuel - List.length entries - 1))%nat by lia.
    rewrite (parseDict_loop_run pv input Hbound entries _ _ _ _
               Hdec Hcur Hdistinct) by (intros ? _ []).
    apply cursor_app in Hcur. cbn [parseDict_loop].
    rewrite (cursor_end_ltb _ _ Hcur). cbn [andb bind]. cbv beta iota.
    now rewrite (cursor_end_leb _ _ Hcur).
  - intros k Htail. apply (Hkey k []); [|exact I].
    now rewrite app_nil_r.
  - intros k c rest Htail Hc. now apply (Hkey k (c :: rest)).
Qed.

Lemma broken_dictionary_rejected_witness :
  parse 20 (str "d1:ai1e") = Throw DictMissingE
  /\ parse 20 (str "d1:ai1e3:foo") = Throw UnexpectedEndOfInput
  /\ parse 20 (str "d1:ai1e3:fooe") = Throw InvalidValueType.
Proof.
  split; [|split].
  - apply (broken_dictionary_rejected [(str "a", TInt false 1)] [] 20);
      try reflexivity.
    vm_compute. lia.
  - apply (proj1 (proj2 (broken_dictionary_rejected
                           [(str "a", TInt false 1)] (str "3:foo") 20
                           eq_refl eq_refl ltac:(vm_compute; lia)))
             (str "foo")).
    reflexivity.
  - apply (proj2 (proj2 (broken_dictionary_rejected
                           [(str "a", TInt false 1)] (str "3:fooe") 20
                           eq_refl eq_refl ltac:(vm_compute; lia)))
             (str "foo") "e"%char []); reflexivity.
Defined.

(** X13: at the top level, an empty input fails with "Unexpected end of
    input" and an input whose first byte is neither a digit nor one of
    ['i'], ['l'], ['d'] fails with "Invalid value type", whatever follows. *)
Theorem invalid_lead_byte_rejected (input : bytes) (fuel : nat) :
  match input with [] => True | c :: _ => valid_lead c = false end ->
  parse (S fuel) input
  = Throw (match input with
           | [] => UnexpectedEndOfInput
           | _ :: _ => InvalidValueType
           end).
Proof.
  intros H. unfold parse.
  now rewrite (parseValue_bad_lead fuel input 0 input (cursor_start _) H).
Qed.

Lemma invalid_lead_byte_rejected_witness :
  parse 1 (str "e4:spam") = Throw InvalidValueType
  /\ parse 1 [] = Throw UnexpectedEndOfInput.
Proof.
  split.
  - apply (invalid_lead_byte_rejected (str "e4:spam") 0). reflexivity.
  - apply (invalid_lead_byte_rejected [] 0). exact I.
Defined.

(* ================================================================= *)
(** * Further properties of the metadata layer *)

(** ** Paths *)

Lemma joinPath_from (pathList : List_) :
  forall i path, 0 < i ->
    TorrentFile.joinPath pathList i path
    = path ++ List.concat (map (fun s => "/"%char :: s) (strings_of pathList)).
Proof.
  induction pathList as [|c pathList IH]; intros i path Hi.
  - simpl. now rewrite app_nil_r.
  - destruct c as [n|s|l|d]; cbn [TorrentFile.joinPath strings_of];
      try (apply IH; lia).
    replace (0 <? i) with true by (symmetry; apply Z.ltb_lt; lia).
    rewrite IH by lia. change (str "/") with ["/"%char].
    cbn [map List.concat]. now rewrite <- !app_assoc.
Qed.

(** X14: the path of a file entry is built from the string components of
    its [path] list only; every one of them is preceded by a ['/'], except
    a string standing first in the list.  So the path begins with ['/']
    when the first component is not a string and a later one is. *)
Theorem path_of_components (pathList : List_) :
  TorrentFile.joinPath pathList 0 []
  = match pathList with
    | [] => []
    | BString s :: rest =>
        s ++ List.concat (map (fun x => "/"%char :: x) (strings_of rest))
    | _ :: rest =>
        List.concat (map (fun x => "/"%char :: x) (strings_of rest))
    end.
Proof.
  destruct pathList as [|[n|s|l|d] rest]; try reflexivity;
    cbn [TorrentFile.joinPath]; change (0 <? 0) with false; cbv iota;
    rewrite joinPath_from by lia; reflexivity.
Qed.

(** ** File lists and the total size *)

Lemma wrap64_add_l (a b : Z) : wrap64 (wrap64 a + b) = wrap64 (a + b).
Proof.
  destruct (wrap64_decomp a) as [k Hk]. rewrite Hk.
  replace (a + k * 2 ^ 64 + b) with (a + b + k * 2 ^ 64) by ring.
  apply wrap64_shift.
Qed.

Lemma total_of_added (added : list FileInfo.t) :
  forall total,
    wrap64 total = total ->
    fold_left (fun t f => wrap64 (t + FileInfo.length f)) added total
    = wrap64 (total + sum_lengths added).
Proof.
  induction added as [|f added IH]; intros total Htotal.
  - simpl. now rewrite Z.add_0_r.
  - cbn [fold_left sum_lengths fold_right].
    rewrite IH by apply wrap64_idem.
    fold (sum_lengths added). rewrite wrap64_add_l. f_equal. lia.
Qed.

Lemma parseFilesList_adds (filesList : List_) :
  forall self,
    exists added,
      TorrentFile.files (TorrentFile.parseFilesList filesList self)
      = TorrentFile.files self ++ added
      /\ TorrentFile.totalSize (TorrentFile.parseFilesList filesList self)
         = fold_left (fun t f => wrap64 (t + FileInfo.length f)) added
             (TorrentFile.totalSize self)
      /\ (List.length added <= List.length filesList)%nat.
Proof.
  induction filesList as [|e filesList IH]; intros self.
  - exists []. cbn. rewrite app_nil_r. auto.
  - assert (Hskip :
      exists added,
        TorrentFile.files (TorrentFile.parseFilesList filesList self)
        = TorrentFile.files self ++ added
        /\ TorrentFile.totalSize (TorrentFile.parseFilesList filesList self)
           = fold_left (fun t f => wrap64 (t + FileInfo.length f)) added
               (TorrentFile.totalSize self)
        /\ (List.length added <= List.length (e :: filesList))%nat).
    { destruct (IH self) as (added & Hf & Ht & Hl).
      exists added. simpl List.length. auto. }
    cbn [TorrentFile.parseFilesList].
    destruct e as [i|s|l|d]; try exact Hskip.
    destruct (StdMap.find (str "length") d) as [[n|s|l|d']|]; try exact Hskip.
    destruct (StdMap.find (str "path") d) as [[n'|s|l|d']|]; try exact Hskip.
    match goal with
    | |- context [TorrentFile.parseFilesList filesList ?self'] =>
        destruct (IH self') as (added & Hf & Ht & Hl)
    end.
    exists (FileInfo.make (TorrentFile.joinPath l 0 []) n :: added).
    rewrite Hf, Ht. cbn. rewrite <- app_assoc. simpl List.length.
    split; [reflexivity|]. split; [reflexivity|lia].
Qed.

Lemma parseFilesList_frame (filesList : List_) :
  forall self,
    let r := TorrentFile.parseFilesList filesList self in
    TorrentFile.announce r = TorrentFile.announce self
    /\ TorrentFile.name r = TorrentFile.name self
    /\ TorrentFile.pieceLength r = TorrentFile.pieceLength self
    /\ TorrentFile.pieces r = TorrentFile.pieces self
    /\ TorrentFile.createdBy r = TorrentFile.createdBy self
    /\ TorrentFile.creationDate r = TorrentFile.creationDate self
    /\ TorrentFile.singleFile r = TorrentFile.singleFile self.
Proof.
  induction filesList as [|e filesList IH]; intros self.
  - cbn. auto 10.
  - cbn [TorrentFile.parseFilesList].
    destruct e as [i|s|l|d]; try apply IH.
    destruct (StdMap.find (str "length") d) as [[n|s|l|d']|]; try apply IH.
    destruct (StdMap.find (str "path") d) as [[n'|s|l|d']|]; try apply IH.
    match goal with
    | |- context [TorrentFile.parseFilesList filesList ?self'] =>
        specialize (IH self')
    end.
    cbn in IH. exact IH.
Qed.

(** X15: [parseFilesList] appends at most one file per entry to the file
    list, adds the lengths of the files it appends to the total size,
    modulo 2^64, and changes no other field. *)
Theorem files_list_total (filesList : List_) (self : TorrentFile.t) :
  wrap64 (TorrentFile.totalSize self) = TorrentFile.totalSize self ->
  let r := TorrentFile.parseFilesList filesList self in
  exists added,
    TorrentFile.files r = TorrentFile.files self ++ added
    /\ TorrentFile.totalSize r
       = wrap64 (TorrentFile.totalSize self + sum_lengths added)
    /\ (List.length added <= List.length filesList)%nat
    /\ TorrentFile.announce r = TorrentFile.announce self
    /\ TorrentFile.name r = TorrentFile.name self
    /\ TorrentFile.pieceLength r = TorrentFile.pieceLength self
    /\ TorrentFile.pieces r = TorrentFile.pieces self
    /\ TorrentFile.createdBy r = TorrentFile.createdBy self
    /\ TorrentFile.creationDate r = TorrentFile.creationDate self
    /\ TorrentFile.singleFile r = TorrentFile.singleFile self.
Proof.
  intros Hrange r.
  destruct (parseFilesList_adds filesList self) as (added & Hf & Ht & Hl).
  exists added. split; [exact Hf|]. split.
  - unfold r. rewrite Ht. now apply total_of_added.
  - split; [exact Hl|]. apply parseFilesList_frame.
Qed.

Lemma files_list_total_witness :
  exists added,
    TorrentFile.files
      (TorrentFile.parseFilesList
         [BDict [(str "length", BInt 7); (str "path", BList [BString (str "a")])];
          BString (str "junk");
          BDict [(str "length", BInt 3); (str "path", BList [])]]
         TorrentFile.init)
    = added
    /\ TorrentFile.totalSize
         (TorrentFile.parseFilesList
            [BDict [(str "length", BInt 7); (str "path", BList [BString (str "a")])];
             BString (str "junk");
             BDict [(str "length", BInt 3); (str "path", BList [])]]
            TorrentFile.init)
       = wrap64 (0 + sum_lengths added)
    /\ (List.length added <= 3)%nat.
Proof.
  destruct (files_list_total
              [BDict [(str "length", BInt 7); (str "path", BList [BString (str "a")])];
               BString (str "junk");
               BDict [(str "length", BInt 3); (str "path", BList [])]]
              TorrentFile.init eq_refl)
    as (added & Hf & Ht & Hl & _).
  exists added. auto.
Defined.

(** ** What a parsed torrent holds *)

Lemma parseInfoDict_fields (infoDict : Dict) (self tf : TorrentFile.t) :
  TorrentFile.parseInfoDict infoDict self = Ok tf ->
  exists pieceLen piecesStr,
    StdMap.find (str "piece length") infoDict = Some (BInt pieceLen)
    /\ StdMap.find (str "pieces") infoDict = Some (BString piecesStr)
    /\ TorrentFile.announce tf = TorrentFile.announce self
    /\ TorrentFile.createdBy tf = TorrentFile.createdBy self
    /\ TorrentFile.creationDate tf = TorrentFile.creationDate self
    /\ TorrentFile.pieceLength tf = pieceLen
    /\ TorrentFile.pieces tf
       = TorrentFile.splitPieces (List.length piecesStr) piecesStr 0
           (TorrentFile.pieces self)
    /\ TorrentFile.name tf
       = match StdMap.find (str "name") infoDict with
         | Some (BString s) => s
         | _ => TorrentFile.name self
         end
    /\ ((exists n,
           StdMap.find (str "length") infoDict = Some (BInt n)
           /\ TorrentFile.singleFile tf = true
           /\ TorrentFile.totalSize tf = n
           /\ TorrentFile.files tf
              = TorrentFile.files self ++ [FileInfo.make (TorrentFile.name tf) n])
        \/ ((forall n, StdMap.find (str "length") infoDict <> Some (BInt n))
            /\ exists filesList added,
                 StdMap.find (str "files") infoDict = Some (BList filesList)
                 /\ TorrentFile.singleFile tf = false
                 /\ TorrentFile.files tf = TorrentFile.files self ++ added
                 /\ TorrentFile.totalSize tf
                    = fold_left (fun t f => wrap64 (t + FileInfo.length f))
                        added (TorrentFile.totalSize self)
                 /\ (List.length added <= List.length filesList)%nat)).
Proof.
  unfold TorrentFile.parseInfoDict.
  destruct (StdMap.find (str "piece length") infoDict) as [[pieceLen|?|?|?]|];
    try discriminate.
  destruct (StdMap.find (str "pieces") infoDict) as [[?|piecesStr|?|?]|];
    try discriminate.
  remember (TorrentFile.set_pieces
              (TorrentFile.splitPieces (List.length piecesStr) piecesStr 0
                 (TorrentFile.pieces (TorrentFile.set_pieceLength pieceLen self)))
              (TorrentFile.set_pieceLength pieceLen self)) as base eqn:Hbase.
  remember (match StdMap.find (str "name") infoDict with
            | Some (BString s) => TorrentFile.set_name s base
            | _ => base
            end) as named eqn:Hnamed.
  assert (Hfacts :
    TorrentFile.announce named = TorrentFile.announce self
    /\ TorrentFile.createdBy named = TorrentFile.createdBy self
    /\ TorrentFile.creationDate named = TorrentFile.creationDate self
    /\ TorrentFile.pieceLength named = pieceLen
    /\ TorrentFile.pieces named
       = TorrentFile.splitPieces (List.length piecesStr) piecesStr 0
           (TorrentFile.pieces self)
    /\ TorrentFile.name named
       = match StdMap.find (str "name") infoDict with
         | Some (BString s) => s
         | _ => TorrentFile.name self
         end
    /\ TorrentFile.files named = TorrentFile.files self
    /\ TorrentFile.totalSize named = TorrentFile.totalSize self).
  { subst named base.
    destruct (StdMap.find (str "name") infoDict) as [[?|?|?|?]|]; cbn; auto 10. }
  clear Hnamed Hbase.
  destruct Hfacts as (Ha & Hc & Hd & Hpl & Hp & Hn & Hf & Ht).
  intros H. exists pieceLen, piecesStr.
  split; [reflexivity|]. split; [reflexivity|].
  destruct (StdMap.find (str "length") infoDict) as [[n|?|?|?]|].
  1: { injection H as <-. cbn. rewrite Ha, Hc, Hd, Hpl, Hp, Hn, Hf.
       repeat (split; [reflexivity|]). left. exists n. auto. }
  all: destruct (StdMap.find (str "files") infoDict) as [[?|?|filesList|?]|];
    try discriminate;
    injection H as <-;
    destruct (parseFilesList_frame filesList
                (TorrentFile.set_singleFile false named))
      as (Fa & Fn & Fpl & Fp & Fc & Fd & Fs);
    destruct (parseFilesList_adds filesList
                (TorrentFile.set_singleFile false named))
      as (added & Gf & Gt & Gl);
    cbn in Fa, Fn, Fpl, Fp, Fc, Fd, Fs, Gf, Gt;
    rewrite Fa, Fn, Fpl, Fp, Fc, Fd, Ha, Hc, Hd, Hpl, Hp, Hn;
    repeat (split; [reflexivity|]); right; (split; [discriminate|]);
    exists filesList, added; rewrite Gf, Gt, Hf, Ht, Fs; auto.
Qed.

Lemma parseTorrentDict_info (dict : Dict) (self tf : TorrentFile.t) :
  TorrentFile.parseTorrentDict dict self = Ok tf ->
  exists infoDict self',
    StdMap.find (str "info") dict = Some (BDict infoDict)
    /\ TorrentFile.parseInfoDict infoDict self' = Ok tf
    /\ TorrentFile.announce self'
       = match StdMap.find (str "announce") dict with
         | Some (BString s) => s
         | _ => TorrentFile.announce self
         end
    /\ TorrentFile.creationDate self'
       = match StdMap.find (str "creation date") dict with
         | Some (BInt n) => n
         | _ => TorrentFile.creationDate self
         end
    /\ TorrentFile.createdBy self'
       = match StdMap.find (str "created by") dict with
         | Some (BString s) => s
         | _ => TorrentFile.createdBy self
         end
    /\ TorrentFile.name self' = TorrentFile.name self
    /\ TorrentFile.pieces self' = TorrentFile.pieces self
    /\ TorrentFile.files self' = TorrentFile.files self
    /\ TorrentFile.totalSize self' = TorrentFile.totalSize self.
Proof.
  unfold TorrentFile.parseTorrentDict.
  destruct (StdMap.find (str "info") dict) as [[?|?|?|infoDict]|];
    try discriminate.
  intros H. eexists infoDict, _. split; [reflexivity|]. split; [exact H|].
  destruct (StdMap.find (str "announce") dict) as [[?|?|?|?]|];
    destruct (StdMap.find (str "creation date") dict) as [[?|?|?|?]|];
    destruct (StdMap.find (str "created by") dict) as [[?|?|?|?]|];
    cbn; auto 10.
Qed.

(** X16: in a torrent that [parseTorrentDict] accepts, the announce URL,
    the creator and the name are the strings under [announce], [created by]
    and [info.name], the creation date and the piece length the integers
    under [creation date] and [info.piece length]; an optional field that
    is missing or of another type leaves the field as it was; and the
    single-file flag says whether [info.length] is an integer. *)
Theorem torrent_fields (dict : Dict) (self tf : TorrentFile.t) :
  TorrentFile.parseTorrentDict dict self = Ok tf ->
  exists infoDict pieceLen,
    StdMap.find (str "info") dict = Some (BDict infoDict)
    /\ StdMap.find (str "piece length") infoDict = Some (BInt pieceLen)
    /\ TorrentFile.pieceLength tf = pieceLen
    /\ TorrentFile.announce tf
       = match StdMap.find (str "announce") dict with
         | Some (BString s) => s
         | _ => TorrentFile.announce self
         end
    /\ TorrentFile.creationDate tf
       = match StdMap.find (str "creation date") dict with
         | Some (BInt n) => n
         | _ => TorrentFile.creationDate self
         end
    /\ TorrentFile.createdBy tf
       = match StdMap.find (str "created by") dict with
         | Some (BString s) => s
         | _ => TorrentFile.createdBy self
         end
    /\ TorrentFile.name tf
       = match StdMap.find (str "name") infoDict with
         | Some (BString s) => s
         | _ => TorrentFile.name self
         end
    /\ TorrentFile.singleFile tf
       = match StdMap.find (str "length") infoDict with
         | Some (BInt _) => true
         | _ => false
         end.
Proof.
  intros H.
  destruct (parseTorrentDict_info _ _ _ H)
    as (infoDict & self' & Hinfo & Hparse & Ha & Hd & Hc & Hn & _).
  destruct (parseInfoDict_fields _ _ _ Hparse)
    as (pieceLen & piecesStr & Hpl & _ & Fa & Fc & Fd & Fpl & _ & Fn & Hcase).
  exists infoDict, pieceLen.
  rewrite Fa, Fc, Fd, Fn, Ha, Hd, Hc, Hn.
  repeat (split; [assumption || reflexivity|]).
  destruct Hcase as [(n & Hlen & Hs & _)|(Hno & _ & _ & _ & Hs & _)].
  - now rewrite Hlen.
  - rewrite Hs.
    destruct (StdMap.find (str "length") infoDict) as [[n|?|?|?]|];
      try reflexivity.
    now contradiction (Hno n).
Qed.

Lemma torrent_fields_witness :
  exists tf,
    TorrentFile.parseTorrentDict
      [(str "announce", BInt 1);
       (str "created by", BString (str "me"));
       (str "info",
        BDict [(str "files", BList []);
               (str "piece length", BInt 5);
               (str "pieces", BString [])])]
      TorrentFile.init = Ok tf
    /\ TorrentFile.announce tf = []
    /\ TorrentFile.createdBy tf = str "me"
    /\ TorrentFile.singleFile tf = false.
Proof.
  eexists. split; [reflexivity|].
  destruct (torrent_fields
              [(str "announce", BInt 1);
               (str "created by", BString (str "me"));
               (str "info",
                BDict [(str "files", BList []);
                       (str "piece length", BInt 5);
                       (str "pieces", BString [])])]
              TorrentFile.init _ eq_refl)
    as (infoDict & pieceLen & Hinfo & _ & _ & Ha & _ & Hc & _ & Hs).
  injection Hinfo as <-.
  split; [exact Ha|]. split; [exact Hc|exact Hs].
Defined.

(** X17: [parseTorrentDict] accepts a root dictionary exactly when [info]
    is a dictionary in which [piece length] is an integer, [pieces] a
    string, and [length] an integer or [files] a list; no other field is
    required. *)
Theorem torrent_accepted_iff (dict : Dict) (self : TorrentFile.t) :
  (exists tf, TorrentFile.parseTorrentDict dict self = Ok tf)
  <-> exists infoDict pieceLen piecesStr,
        StdMap.find (str "info") dict = Some (BDict infoDict)
        /\ StdMap.find (str "piece length") infoDict = Some (BInt pieceLen)
        /\ StdMap.find (str "pieces") infoDict = Some (BString piecesStr)
        /\ ((exists n, StdMap.find (str "length") infoDict = Some (BInt n))
            \/ (exists filesList,
                  StdMap.find (str "files") infoDict = Some (BList filesList))).
Proof.
  split.
  - intros (tf & H).
    destruct (parseTorrentDict_info _ _ _ H)
      as (infoDict & self' & Hinfo & Hparse & _).
    destruct (parseInfoDict_fields _ _ _ Hparse)
      as (pieceLen & piecesStr & Hpl & Hp & _ & _ & _ & _ & _ & _ & Hcase).
    exists infoDict, pieceLen, piecesStr.
    repeat (split; [assumption|]).
    destruct Hcase as [(n & Hlen & _)|(_ & filesList & _ & Hfiles & _)];
      eauto.
  - intros (infoDict & pieceLen & piecesStr & Hinfo & Hpl & Hp & Hcase).
    unfold TorrentFile.parseTorrentDict, TorrentFile.parseInfoDict.
    rewrite Hinfo, Hpl, Hp.
    destruct Hcase as [(n & Hlen)|(filesList & Hfiles)].
    + rewrite Hlen. eauto.
    + rewrite Hfiles.
      destruct (StdMap.find (str "length") infoDict) as [[n|?|?|?]|]; eauto.
Qed.

Lemma find_value_ok (k : bytes) (d : Dict) (v : BencodeValue) :
  value_ok (BDict d) -> StdMap.find k d = Some v -> value_ok v.
Proof.
  intros Hd. apply value_ok_dict in Hd. destruct Hd as [_ Hall].
  induction d as [|[k0 v0] d IH]; simpl; [discriminate|].
  inversion Hall as [|? ? H0 Hall']; subst.
  destruct (StdMap.compare k k0); auto.
  now intros [= <-].
Qed.

(** X18: in every torrent built from a buffer, the total size is the sum
    of the lengths of the files listed, modulo 2^64, and a single-file
    torrent lists exactly one file, under the torrent's name. *)
Theorem torrent_total_size
    (fuel : nat) (torrentData : bytes) (tf : TorrentFile.t) :
  TorrentFile.construct fuel torrentData = Ok tf ->
  TorrentFile.totalSize tf = wrap64 (sum_lengths (TorrentFile.files tf))
  /\ (TorrentFile.singleFile tf = true ->
      TorrentFile.files tf
      = [FileInfo.make (TorrentFile.name tf) (TorrentFile.totalSize tf)]).
Proof.
  unfold TorrentFile.construct, parse.
  destruct (parseValue fuel torrentData 0) as [[v p]| e |] eqn:E;
    try discriminate.
  cbn [bind]. destruct v as [?|?|?|dict]; try discriminate.
  pose proof (proj1 (parseValue_result _ _ _ _ _ (Z.le_refl 0) E)) as Hok.
  intros H.
  destruct (parseTorrentDict_info _ _ _ H)
    as (infoDict & self' & Hinfo & Hparse & _ & _ & _ & _ & _ & Hf & Ht).
  pose proof (find_value_ok _ _ _ Hok Hinfo) as Hinfo_ok.
  destruct (parseInfoDict_fields _ _ _ Hparse)
    as (_ & _ & _ & _ & _ & _ & _ & _ & _ & _ & Hcase).
  rewrite Hf, Ht in Hcase. cbn in Hcase.
  destruct Hcase as [(n & Hlen & Hs & Htotal & Hfiles)
                    |(_ & filesList & added & _ & Hs & Hfiles & Htotal & _)].
  - pose proof (find_value_ok _ _ _ Hinfo_ok Hlen) as Hn. cbn in Hn.
    rewrite Hfiles, Htotal. split; [|reflexivity].
    cbn. rewrite Z.add_0_r. symmetry. now apply wrap64_small.
  - rewrite Hfiles, Htotal, Hs. split; [|discriminate].
    rewrite total_of_added by reflexivity. reflexivity.
Qed.

Lemma torrent_total_size_witness :
  wrap64 (sum_lengths [FileInfo.make (str "a/bc") 7; FileInfo.make (str "z") 3])
  = 10.
Proof.
  symmetry.
  apply (torrent_total_size 10
           (str "d4:infod5:filesld6:lengthi7e4:pathl1:a2:bceed6:lengthi3e4:pathl1:zeee12:piece lengthi5e6:pieces20:AAAAAAAAAAAAAAAAAAAAee")
           (TorrentFile.make [] [] 5 [str "AAAAAAAAAAAAAAAAAAAA"]
              [FileInfo.make (str "a/bc") 7; FileInfo.make (str "z") 3]
              10 [] 0 false)).
  vm_compute. reflexivity.
Defined.

(** ** Piece hashes *)

Lemma splitPieces_count (fuel : nat) :
  forall (s : bytes) (i : Z) (rest : bytes) (acc : list bytes),
    cursor s i rest -> (List.length rest <= fuel)%nat ->
    List.length (TorrentFile.splitPieces fuel s i acc)
    = (List.length acc + (List.length rest + 19) / 20)%nat.
Proof.
  induction fuel as [|fuel IH]; intros s i rest acc Hcur Hfuel.
  - destruct rest; [|simpl in Hfuel; lia].
    cbn [TorrentFile.splitPieces List.length]. cbn. lia.
  - destruct rest as [|c r].
    + cbn [TorrentFile.splitPieces].
      rewrite (cursor_end_ltb _ _ Hcur). cbn. lia.
    + cbn [TorrentFile.splitPieces]. rewrite (cursor_ltb _ _ _ _ Hcur).
      assert (Hlen : (1 <= List.length (c :: r))%nat) by (simpl; lia).
      remember (c :: r) as rest eqn:Hrest. clear Hrest c r.
      pose proof (cursor_size _ _ _ Hcur) as Hsize.
      destruct (Nat.le_gt_cases (List.length rest) 20) as [Hshort|Hlong].
      * rewrite splitPieces_past_end by (unfold size in *; lia).
        rewrite List.length_app. cbn [List.length].
        replace ((List.length rest + 19) / 20)%nat with 1%nat; [lia|].
        apply (Nat.div_unique _ 20 1 (List.length rest - 1)); lia.
      * pose proof (firstn_skipn 20 rest) as Hsplit.
        assert (Ha : List.length (firstn 20 rest) = 20%nat)
          by (rewrite List.length_firstn; lia).
        pose proof (List.length_skipn 20 rest) as Hrest'.
        remember (firstn 20 rest) as a eqn:Heqa.
        remember (skipn 20 rest) as rest' eqn:Heqrest'.
        clear Heqa Heqrest'.
        rewrite <- Hsplit in Hcur. apply cursor_app in Hcur.
        replace (i + size a) with (i + 20) in Hcur by (unfold size; lia).
        rewrite (IH s (i + 20) rest' _ Hcur) by lia.
        rewrite List.length_app. cbn [List.length]. rewrite Hrest'.
        replace (List.length rest + 19)%nat
          with (List.length rest - 20 + 19 + 1 * 20)%nat by lia.
        rewrite Nat.div_add by lia. lia.
Qed.

(** X19: the piece hashes [parseInfoDict] appends are consecutive chunks
    of the [pieces] string that put together give the string back; there
    are ceil(length / 20) of them, each of 1 to 20 bytes, and each of
    exactly 20 bytes when the length of the string is a multiple of 20. *)
Theorem pieces_cover_the_string (infoDict : Dict) (self tf : TorrentFile.t) :
  TorrentFile.parseInfoDict infoDict self = Ok tf ->
  exists piecesStr chunks,
    StdMap.find (str "pieces") infoDict = Some (BString piecesStr)
    /\ TorrentFile.pieces tf = TorrentFile.pieces self ++ chunks
    /\ List.concat chunks = piecesStr
    /\ List.length chunks = ((List.length piecesStr + 19) / 20)%nat
    /\ Forall (fun h => (1 <= List.length h <= 20)%nat) chunks
    /\ ((List.length piecesStr mod 20 = 0)%nat ->
        Forall (fun h => List.length h = 20%nat) chunks).
Proof.
  intros H.
  destruct (parseInfoDict_fields _ _ _ H)
    as (_ & piecesStr & _ & Hp & _ & _ & _ & _ & Hpieces & _).
  destruct (splitPieces_chunks (List.length piecesStr) piecesStr 0 piecesStr
              (TorrentFile.pieces self) (cursor_start _) (Nat.le_refl _))
    as (chunks & E & Hcat & Hbounds & Hexact).
  pose proof (splitPieces_count (List.length piecesStr) piecesStr 0 piecesStr
                (TorrentFile.pieces self) (cursor_start _) (Nat.le_refl _))
    as Hcount.
  rewrite E, List.length_app in Hcount.
  exists piecesStr, chunks. rewrite Hpieces, E.
  repeat (split; [assumption || reflexivity || lia|]). exact Hexact.
Qed.

Lemma pieces_cover_the_string_witness :
  exists piecesStr chunks,
    piecesStr = str "AAAAAAAAAAAAAAAAAAAABBB"
    /\ List.concat chunks = piecesStr
    /\ List.length chunks = 2%nat.
Proof.
  destruct (pieces_cover_the_string
              [(str "length", BInt 1);
               (str "piece length", BInt 5);
               (str "pieces", BString (str "AAAAAAAAAAAAAAAAAAAABBB"))]
              TorrentFile.init _ eq_refl)
    as (piecesStr & chunks & Hp & _ & Hcat & Hcount & _).
  injection Hp as <-.
  exists (str "AAAAAAAAAAAAAAAAAAAABBB"), chunks. auto.
Defined.

(** ** The root of a torrent *)

(** X20: a buffer that begins with a well-formed encoding of an integer, a
    string or a list is refused with "root must be a dictionary", whatever
    follows the value. *)
Theorem root_must_be_dictionary (t : Term) (trailing : bytes) (fuel : nat) :
  unique_keys t = true ->
  match t with TDict _ => False | _ => True end ->
  size (encoding t ++ trailing) < 2 ^ 64 ->
  (List.length (encoding t) < fuel)%nat ->
  TorrentFile.construct fuel (encoding t ++ trailing) = Throw RootMustBeDict.
Proof.
  intros Hwf Hroot Hbound Hfuel.
  unfold TorrentFile.construct, parse.
  rewrite (parseValue_ok t Hwf fuel _ 0 trailing (cursor_start _) Hbound Hfuel).
  cbn [bind]. destruct t; try reflexivity. contradiction.
Qed.

Lemma root_must_be_dictionary_witness :
  TorrentFile.construct 20 (str "l4:infoed4:infodee") = Throw RootMustBeDict.
Proof.
  apply (root_must_be_dictionary
           (TList [TString (str "info")]) (str "d4:infodee") 20).
  - reflexivity.
  - exact I.
  - reflexivity.
  - vm_compute. lia.
Defined.
